(** * csv-parser: the raw CSV scanner and its row channel

    A shallow embedding of [include/internal/raw_csv_data.hpp]:
    the classification tables, [ThreadSafeDeque] and the inline members of
    [BasicCSVParser] ([parse_flag], [ws_flag], [parse_field], [push_row]).
    The members the header only declares ([parse], [parse_loop],
    [push_field]) have no body to embed and are left out.

    Conventions.
    - [size_t] is an unsigned 64-bit integer: a [Z] reduced by [wrap64]
      wherever the C++ arithmetic can leave the range.
    - [int] is a signed 32-bit integer; the cast [(int)x] is [to_int x].
    - [char] is a signed 8-bit integer (the x86-64 ABI the library is built
      for); a byte of the input is a [Byte.byte] and [char_value] gives the
      value the arithmetic [ch + 128] sees.
    - [csv::string_view] is a list of bytes; [in[j]] is [sv_at], which
      reports an index outside the span instead of reading. *)

From Stdlib Require Import Strings.Byte Strings.String.
From Stdlib Require Import ZArith List Bool Lia.
Import ListNotations.
Local Open Scope Z_scope.

Set Implicit Arguments.

(** ** Machine integers *)

Definition SIZE_MAX : Z := 2 ^ 64 - 1.

(** Reduction of a mathematical integer to [size_t]. *)
Definition wrap64 (z : Z) : Z := z mod 2 ^ 64.

(** The cast [(int)z]: the low 32 bits of [z], read as two's complement. *)
Definition to_int (z : Z) : Z := (z + 2 ^ 31) mod 2 ^ 32 - 2 ^ 31.

(** ** Results of fallible code

    A read outside a span or a pop from an empty deque is undefined
    behaviour in C++; the model stops there and says why.  [OutOfFuel] is
    the model running out of loop iterations; the totality lemmas below
    show it never happens with the fuel the definitions pass. *)

Inductive Fault : Type :=
| OutOfBounds (j : Z)
| OutOfFuel.

Inductive Result (A : Type) : Type :=
| Ok (a : A)
| Err (f : Fault).

Arguments Ok {A} a.
Arguments Err {A} f.

Definition bind {A B : Type} (r : Result A) (k : A -> Result B) : Result B :=
  match r with
  | Ok a => k a
  | Err f => Err f
  end.

Notation "x <- c ;; k" := (bind c (fun x => k))
  (at level 61, c at next level, right associativity).

(** ** Characters and spans *)

Definition char : Type := Byte.byte.

(** The value of a [char] as the promoted [int] of [ch + 128]. *)
Definition char_value (ch : char) : Z :=
  let n := Z.of_N (Byte.to_N ch) in
  if n <? 128 then n else n - 256.

Definition string_view : Type := list char.

Definition sv_size (s : string_view) : Z := Z.of_nat (length s).

(** [in[j]] for a [size_t] index [j]. *)
Definition sv_at (s : string_view) (j : Z) : Result char :=
  if (0 <=? j) && (j <? sv_size s) then
    match nth_error s (Z.to_nat j) with
    | Some ch => Ok ch
    | None => Err (OutOfBounds j)
    end
  else Err (OutOfBounds j).

(** Indexing a [std::array] through [data()[idx]] with an [int] index. *)
Definition array_at {T : Type} (a : list T) (idx : Z) : option T :=
  if idx <? 0 then None else nth_error a (Z.to_nat idx).

Module internals.

(** [enum class ParseFlags] *)
Inductive ParseFlags : Type :=
| NOT_SPECIAL
| QUOTE
| DELIMITER
| NEWLINE.

Definition ParseFlags_eqb (a b : ParseFlags) : bool :=
  match a, b with
  | NOT_SPECIAL, NOT_SPECIAL | QUOTE, QUOTE
  | DELIMITER, DELIMITER | NEWLINE, NEWLINE => true
  | _, _ => false
  end.

(** [std::array<ParseFlags, 256>]: the length is part of the type. *)
Record ParseFlagMap : Type := {
  pf_slots : list ParseFlags;
  pf_extent : length pf_slots = 256%nat
}.

(** [std::array<bool, 256>] *)
Record WhitespaceMap : Type := {
  ws_slots : list bool;
  ws_extent : length ws_slots = 256%nat
}.

End internals.

Import internals.


(** ** [template<typename T> class ThreadSafeDeque]

    The object is its two data members that carry values, [data] and
    [stop_waiting], together with the state of the mutex [_lock].  One
    thread runs one member function at a time, so [_lock] is free when a
    member function is entered; [accesses] is a ghost log with one entry per
    touch of [data], recording whether [_lock] was held at that moment.
    [_cond.notify_all()] has no effect on these members and is a comment in
    the bodies below. *)

Module ThreadSafeDeque.

Inductive Access : Type :=
| Guarded
| Unguarded.

(** What a call does: it returns, it has undefined behaviour (a violated
    precondition of [std::deque]), it suspends the caller on the condition
    variable, or it leaves by an exception. *)
Inductive Outcome (A : Type) : Type :=
| Returns (a : A)
| Undefined
| Blocks
| Throws.

Arguments Returns {A} a.
Arguments Undefined {A}.
Arguments Blocks {A}.
Arguments Throws {A}.

Section Deque.

Variable T : Type.

Record t : Type := {
  data : list T;
  stop_waiting : bool;
  _lock : bool;
  accesses : list Access
}.

(** [ThreadSafeDeque() = default;] with [bool stop_waiting = true;] *)
Definition default : t :=
  {| data := []; stop_waiting := true; _lock := false; accesses := [] |}.

(** [ThreadSafeDeque(const std::deque<T>& source)] *)
Definition from_deque (source : list T) : t :=
  {| data := source; stop_waiting := true; _lock := false; accesses := [] |}.

(** [ThreadSafeDeque(const ThreadSafeDeque& other) { this->data = other.data; }]
    Only [data] is assigned: [stop_waiting] takes its default member
    initializer, and the mutex and the condition variable are new. *)
Definition copy (other : t) : t :=
  {| data := data other; stop_waiting := true; _lock := false; accesses := [] |}.

(** [std::unique_lock<std::mutex> lock{ this->_lock };] *)
Definition lock (q : t) : t :=
  {| data := data q; stop_waiting := stop_waiting q; _lock := true;
     accesses := accesses q |}.

(** [lock.unlock();] or the destructor of the [unique_lock] *)
Definition unlock (q : t) : t :=
  {| data := data q; stop_waiting := stop_waiting q; _lock := false;
     accesses := accesses q |}.

(** Any use of [this->data]. *)
Definition touch (q : t) : t :=
  {| data := data q; stop_waiting := stop_waiting q; _lock := _lock q;
     accesses := accesses q ++ [if _lock q then Guarded else Unguarded] |}.

Definition set_data (d : list T) (q : t) : t :=
  {| data := d; stop_waiting := stop_waiting q; _lock := _lock q;
     accesses := accesses q |}.

Definition set_stop_waiting (b : bool) (q : t) : t :=
  {| data := data q; stop_waiting := b; _lock := _lock q;
     accesses := accesses q |}.

(** [bool empty() const noexcept { return this->data.empty(); }] *)
Definition empty (q : t) : bool * t :=
  let q := touch q in
  (match data q with [] => true | _ :: _ => false end, q).

(** [T& front() noexcept { return this->data.front(); }] *)
Definition front (q : t) : Outcome (T * t) :=
  let q := touch q in
  match data q with
  | [] => Undefined
  | x :: _ => Returns (x, q)
  end.

(** [T& operator[](size_t n) { return this->data[n]; }] *)
Definition index (n : Z) (q : t) : Outcome (T * t) :=
  let q := touch q in
  match array_at (data q) n with
  | None => Undefined
  | Some x => Returns (x, q)
  end.

(** [void push_back(T&& item)] *)
Definition push_back (item : T) (q : t) : t :=
  let q := lock q in
  let q := set_data (data q ++ [item]) (touch q) in
  (* this->_cond.notify_all(); *)
  unlock q.

(** [bool wait_for_data()]: [_cond.wait(lock, pred)] returns at once when
    [pred] holds and otherwise releases the lock and suspends the caller. *)
Definition wait_for_data (q : t) : Outcome (bool * t) :=
  let q := lock q in
  let '(e, q) := empty q in
  if negb e || Bool.eqb (stop_waiting q) true then
    let q := unlock q in
    Returns (true, q)
  else Blocks.

(** [T pop_front() noexcept] *)
Definition pop_front (q : t) : Outcome (T * t) :=
  let q := lock q in
  let q := touch q in
  match data q with
  | [] => Undefined                      (* data.front() on an empty deque *)
  | item :: rest =>
      let q := set_data rest (touch q) in  (* data.pop_front() *)
      let q := unlock q in
      Returns (item, q)
  end.

(** [size_t size() const noexcept { return this->data.size(); }] *)
Definition size (q : t) : Z * t :=
  let q := touch q in
  (Z.of_nat (length (data q)), q).

(** [begin()] and [end()]: the iterator is its position in [data]. *)
Definition begin_ (q : t) : Z * t :=
  let q := touch q in (0, q).

Definition end_ (q : t) : Z * t :=
  let q := touch q in (Z.of_nat (length (data q)), q).

(** [void start_waiters()] *)
Definition start_waiters (q : t) : t :=
  let q := lock q in
  let q := set_stop_waiting false q in
  (* this->_cond.notify_all(); *)
  unlock q.

(** [void stop_waiters()] *)
Definition stop_waiters (q : t) : t :=
  let q := lock q in
  let q := set_stop_waiting true q in
  (* this->_cond.notify_all(); *)
  unlock q.

(** [void clear() noexcept { this->data.clear(); }] *)
Definition clear (q : t) : t :=
  set_data [] (touch q).

(** The public member functions as one interface. *)
Inductive Call : Type :=
| CallEmpty
| CallFront
| CallIndex (n : Z)
| CallPushBack (item : T)
| CallWaitForData
| CallPopFront
| CallSize
| CallBegin
| CallEnd
| CallStartWaiters
| CallStopWaiters
| CallClear.

Inductive Value : Type :=
| VVoid
| VBool (b : bool)
| VItem (x : T)
| VSize (n : Z).

Definition lift {A : Type} (f : A -> Value) (o : Outcome (A * t))
  : Outcome (Value * t) :=
  match o with
  | Returns (a, q) => Returns (f a, q)
  | Undefined => Undefined
  | Blocks => Blocks
  | Throws => Throws
  end.

Definition exec (c : Call) (q : t) : Outcome (Value * t) :=
  match c with
  | CallEmpty => let '(b, q) := empty q in Returns (VBool b, q)
  | CallFront => lift VItem (front q)
  | CallIndex n => lift VItem (index n q)
  | CallPushBack item => Returns (VVoid, push_back item q)
  | CallWaitForData => lift VBool (wait_for_data q)
  | CallPopFront => lift VItem (pop_front q)
  | CallSize => let '(n, q) := size q in Returns (VSize n, q)
  | CallBegin => let '(n, q) := begin_ q in Returns (VSize n, q)
  | CallEnd => let '(n, q) := end_ q in Returns (VSize n, q)
  | CallStartWaiters => Returns (VVoid, start_waiters q)
  | CallStopWaiters => Returns (VVoid, stop_waiters q)
  | CallClear => Returns (VVoid, clear q)
  end.

(** The code the member functions call into and that can fail: the
    constructor of [std::unique_lock] locks the [std::mutex] and throws
    [std::system_error] when the lock cannot be taken;
    [std::deque::push_back] throws [std::bad_alloc] when it cannot
    allocate; the move constructor of [T] may throw what it likes.  A
    [Callees] says which of them work during a call. *)
Record Callees : Type := {
  mutex_locks : bool;
  deque_allocates : bool;
  element_moves : bool
}.

(** The [noexcept] specifier of each member function, as the class
    declares it. *)
Definition is_noexcept (c : Call) : bool :=
  match c with
  | CallEmpty | CallFront | CallPopFront | CallSize
  | CallBegin | CallEnd | CallClear => true
  | CallIndex _ | CallPushBack _ | CallWaitForData
  | CallStartWaiters | CallStopWaiters => false
  end.

(** How a call ends: in one of the outcomes, or in [std::terminate], which
    is what an exception that reaches the edge of a [noexcept] function
    becomes. *)
Inductive Exit (A : Type) : Type :=
| Completes (o : Outcome A)
| Terminates.

Arguments Completes {A} o.
Arguments Terminates {A}.

(** A call with its callees as they are.  [push_back] locks, then moves the
    item into a slot the deque allocates; [wait_for_data], [start_waiters]
    and [stop_waiters] lock; none of the four is [noexcept], so the
    exception of a callee leaves the call.  [pop_front] locks, then moves
    the front element out ([data.front()] on an empty deque comes first);
    it is [noexcept].  The other members call nothing that throws.  When
    no callee fails the call is [exec]. *)
Definition exec_with (env : Callees) (c : Call) (q : t)
  : Exit (Value * t) :=
  match c with
  | CallPushBack _ =>
      if mutex_locks env && deque_allocates env && element_moves env
      then Completes (exec c q)
      else Completes Throws
  | CallWaitForData | CallStartWaiters | CallStopWaiters =>
      if mutex_locks env then Completes (exec c q) else Completes Throws
  | CallPopFront =>
      if mutex_locks env then
        match data q with
        | [] => Completes (exec c q)
        | _ :: _ =>
            if element_moves env then Completes (exec c q) else Terminates
        end
      else Terminates
  | CallEmpty | CallFront | CallIndex _ | CallSize
  | CallBegin | CallEnd | CallClear => Completes (exec c q)
  end.

(** The lock discipline: every touch of [data] logged so far was made with
    [_lock] held. *)
Definition all_guarded (q : t) : bool :=
  forallb (fun a => match a with Guarded => true | Unguarded => false end)
          (accesses q).

(** A producer/consumer history: the calls that move rows through the
    channel. *)
Inductive QueueOp : Type :=
| Push (item : T)
| Pop.

(** Runs a history and collects what the pops returned, in order. *)
Fixpoint run (ops : list QueueOp) (q : t) : Outcome (list T * t) :=
  match ops with
  | [] => Returns ([], q)
  | Push item :: rest => run rest (push_back item q)
  | Pop :: rest =>
      match pop_front q with
      | Returns (x, q') =>
          match run rest q' with
          | Returns (outs, q'') => Returns (x :: outs, q'')
          | Undefined => Undefined
          | Blocks => Blocks
          | Throws => Throws
          end
      | Undefined => Undefined
      | Blocks => Blocks
      | Throws => Throws
      end
  end.

(** No pop of the history meets an empty deque, when it starts with [n]
    items: the precondition the callers of [pop_front] must keep. *)
Fixpoint pops_covered (ops : list QueueOp) (n : nat) : bool :=
  match ops with
  | [] => true
  | Push _ :: rest => pops_covered rest (S n)
  | Pop :: rest =>
      match n with
      | O => false
      | S n' => pops_covered rest n'
      end
  end.

(** The items a history pushes, in order. *)
Fixpoint pushed (ops : list QueueOp) : list T :=
  match ops with
  | [] => []
  | Push item :: rest => item :: pushed rest
  | Pop :: rest => pushed rest
  end.

End Deque.

Arguments default {T}.
Arguments Pop {T}.
Arguments CallEmpty {T}.
Arguments CallFront {T}.
Arguments CallIndex {T} n.
Arguments CallWaitForData {T}.
Arguments CallPopFront {T}.
Arguments CallSize {T}.
Arguments CallBegin {T}.
Arguments CallEnd {T}.
Arguments CallStartWaiters {T}.
Arguments CallStopWaiters {T}.
Arguments CallClear {T}.
Arguments Completes {A} o.
Arguments Terminates {A}.

End ThreadSafeDeque.

(** ** The data the parser produces

    [RawCSVField] and [CSVRow] are declared in [csv_row.hpp]; the members
    used by this header are the ones below, all of them [size_t] but the
    flag.  The field array a row reaches through [row.data->fields] is the
    store the parser appends to, and is passed next to the row. *)

Record RawCSVField : Type := {
  rf_start : Z;
  rf_length : Z;
  rf_has_double_quote : bool
}.

Record CSVRow : Type := {
  data_start : Z;
  field_bounds_index : Z;
  row_length : Z
}.

Definition set_row_length (n : Z) (row : CSVRow) : CSVRow :=
  {| data_start := data_start row;
     field_bounds_index := field_bounds_index row;
     row_length := n |}.

(** [using RowCollection = ThreadSafeDeque<CSVRow>;] *)
Definition RowCollection : Type := ThreadSafeDeque.t CSVRow.

(** The three variables [parse_field] updates through its references. *)
Record FieldCursor : Type := {
  fc_i : Z;
  fc_field_start : Z;
  fc_field_length : Z
}.

(** ** [class BasicCSVParser] *)

Module BasicCSVParser.

Section Parser.

(** The members [_parse_flags] and [_ws_flags]. *)
Variable _parse_flags : ParseFlagMap.
Variable _ws_flags : WhitespaceMap.

(** [_parse_flags.data()[ch + 128]], as the array access it is. *)
Definition parse_flag_slot (ch : char) : option ParseFlags :=
  array_at (pf_slots _parse_flags) (char_value ch + 128).

(** [_ws_flags.data()[ch + 128]] *)
Definition ws_flag_slot (ch : char) : option bool :=
  array_at (ws_slots _ws_flags) (char_value ch + 128).

(** [CONSTEXPR internals::ParseFlags parse_flag(const char ch) const] *)
Definition parse_flag (ch : char) : ParseFlags :=
  match parse_flag_slot ch with
  | Some f => f
  | None => NOT_SPECIAL
  end.

(** [CONSTEXPR bool ws_flag(const char ch) const] *)
Definition ws_flag (ch : char) : bool :=
  match ws_flag_slot ch with
  | Some b => b
  | None => false
  end.

(** [while (i < in.size() && P(in[i])) i++;]  The index stays below
    [in.size()], so [i++] does not wrap. *)
Fixpoint advance_while (P : char -> bool) (fuel : nat) (in_ : string_view)
  (i : Z) : Result Z :=
  match fuel with
  | O => Err OutOfFuel
  | S fuel' =>
      if i <? sv_size in_ then
        ch <- sv_at in_ i ;;
        if P ch then advance_while P fuel' in_ (i + 1) else Ok i
      else Ok i
  end.

(** The test of the fast scan, for either value of the template argument. *)
Definition scan_continues (QuoteEscape : bool) (ch : char) : bool :=
  if QuoteEscape
  then negb (ParseFlags_eqb (parse_flag ch) QUOTE)
  else ParseFlags_eqb (parse_flag ch) NOT_SPECIAL.

(** [for (size_t j = i - 1; ws_flag(in[j]) && field_length > 0; j--)
      field_length--;]
    [in[j]] is read before [field_length] is tested. *)
Fixpoint trim_trailing (fuel : nat) (in_ : string_view) (j : Z)
  (field_length : Z) : Result Z :=
  match fuel with
  | O => Err OutOfFuel
  | S fuel' =>
      ch <- sv_at in_ j ;;
      if ws_flag ch && (0 <? field_length)
      then trim_trailing fuel' in_ (wrap64 (j - 1)) (field_length - 1)
      else Ok field_length
  end.

(** [template<bool QuoteEscape=false>
     CONSTEXPR void parse_field(string_view in, size_t& i, int& field_start,
       size_t& field_length, const size_t& current_row_start)]
    [field_length] is only written. *)
Definition parse_field (QuoteEscape : bool) (in_ : string_view) (i : Z)
  (field_start : Z) (current_row_start : Z) : Result FieldCursor :=
  let fuel := S (length in_) in
  (* Trim off leading whitespace *)
  i <- advance_while ws_flag fuel in_ i ;;
  let field_start :=
    if field_start <? 0
    then to_int (wrap64 (i - current_row_start))
    else field_start in
  i <- advance_while (scan_continues QuoteEscape) fuel in_ i ;;
  let field_length := wrap64 (i - wrap64 (field_start + current_row_start)) in
  (* Trim off trailing whitespace *)
  field_length <- trim_trailing fuel in_ (wrap64 (i - 1)) field_length ;;
  Ok {| fc_i := i;
        fc_field_start := field_start;
        fc_field_length := field_length |}.

(** The table as the fast scan of [parse_field<true>] reads it: only the
    QUOTE entries keep their tag. *)
Definition ordinary_unless_quote (f : ParseFlags) : ParseFlags :=
  match f with
  | QUOTE => QUOTE
  | _ => NOT_SPECIAL
  end.

(** [void push_row(CSVRow&& row, RowCollection& records)] *)
Definition push_row (row : CSVRow) (fields : list RawCSVField)
  (records : RowCollection) : RowCollection :=
  let row :=
    set_row_length
      (wrap64 (Z.of_nat (length fields) - field_bounds_index row)) row in
  ThreadSafeDeque.push_back row records.

End Parser.

End BasicCSVParser.

(** A table with every DELIMITER and NEWLINE entry turned into
    NOT_SPECIAL. *)
Definition quoted_view (pf : ParseFlagMap) : ParseFlagMap :=
  {| pf_slots := map BasicCSVParser.ordinary_unless_quote (pf_slots pf);
     pf_extent :=
       eq_trans (length_map BasicCSVParser.ordinary_unless_quote (pf_slots pf))
                (pf_extent pf) |}.

(** [x] is where [while (i < in.size() && P(in[i])) i++] stops when it is
    started at [i]. *)
Definition stops (P : char -> bool) (in_ : string_view) (i x : Z) : Prop :=
  i <= x <= sv_size in_ /\
  (forall k, i <= k < x -> exists ch, sv_at in_ k = Ok ch /\ P ch = true) /\
  (x < sv_size in_ -> exists ch, sv_at in_ x = Ok ch /\ P ch = false).

(** ** Dialects used in the examples *)

Definition slots_of {T : Type} (f : Z -> T) : list T :=
  map (fun k => f (Z.of_nat k - 128)) (seq 0 256).

(** Comma, double quote, line feed and carriage return. *)
Definition comma_flags : ParseFlagMap :=
  {| pf_slots := slots_of (fun c =>
       if c =? 44 then DELIMITER
       else if c =? 34 then QUOTE
       else if (c =? 10) || (c =? 13) then NEWLINE
       else NOT_SPECIAL);
     pf_extent := eq_refl |}.

(** Space and tab are trimmed. *)
Definition space_tab_ws : WhitespaceMap :=
  {| ws_slots := slots_of (fun c => (c =? 32) || (c =? 9));
     ws_extent := eq_refl |}.

Definition bytes (s : string) : string_view := list_byte_of_string s.

Definition LF : char := x0a.
Definition DQ : char := x22.

(** The layout the members [_parse_flags] and [_ws_flags] document: the
    [(c + 128)]th slot holds the entry of the character [c]. *)
Definition flags_of (f : Z -> ParseFlags) : ParseFlagMap :=
  {| pf_slots := slots_of f; pf_extent := eq_refl |}.

Definition ws_of (f : Z -> bool) : WhitespaceMap :=
  {| ws_slots := slots_of f; ws_extent := eq_refl |}.

(** * Properties

    ** Machine integers and results *)

Lemma ParseFlags_eqb_eq (a b : ParseFlags) :
  ParseFlags_eqb a b = true <-> a = b.
Proof. destruct a, b; simpl; split; intro H; congruence. Qed.

Lemma wrap64_range (z : Z) : 0 <= wrap64 z < 2 ^ 64.
Proof. unfold wrap64. apply Z.mod_pos_bound. lia. Qed.

Lemma wrap64_small (z : Z) : 0 <= z < 2 ^ 64 -> wrap64 z = z.
Proof. intro H. unfold wrap64. apply Z.mod_small. exact H. Qed.

Lemma wrap64_sub_r (a b : Z) : wrap64 (a - wrap64 b) = wrap64 (a - b).
Proof. unfold wrap64. apply Zminus_mod_idemp_r. Qed.

Lemma wrap64_sub_l (a b : Z) : wrap64 (wrap64 a - b) = wrap64 (a - b).
Proof. unfold wrap64. apply Zminus_mod_idemp_l. Qed.

Lemma wrap64_add_l (a b : Z) : wrap64 (wrap64 a + b) = wrap64 (a + b).
Proof. unfold wrap64. apply Zplus_mod_idemp_l. Qed.

Lemma wrap64_add_r (a b : Z) : wrap64 (a + wrap64 b) = wrap64 (a + b).
Proof. unfold wrap64. apply Zplus_mod_idemp_r. Qed.

Lemma to_int_wrap64 (z : Z) : to_int (wrap64 z) = to_int z.
Proof.
  unfold to_int, wrap64.
  replace (2 ^ 64) with (2 ^ 32 * 2 ^ 32) by reflexivity.
  rewrite Z.rem_mul_r by lia.
  replace (z mod 2 ^ 32 + 2 ^ 32 * ((z / 2 ^ 32) mod 2 ^ 32) + 2 ^ 31)
    with (z mod 2 ^ 32 + 2 ^ 31 + ((z / 2 ^ 32) mod 2 ^ 32) * 2 ^ 32) by ring.
  rewrite Z.mod_add by lia.
  rewrite Zplus_mod_idemp_l. reflexivity.
Qed.

Lemma to_int_small (z : Z) : - 2 ^ 31 <= z < 2 ^ 31 -> to_int z = z.
Proof.
  intro H. unfold to_int. rewrite Z.mod_small; lia.
Qed.

Lemma to_int_range (z : Z) : - 2 ^ 31 <= to_int z < 2 ^ 31.
Proof.
  unfold to_int.
  pose proof (Z.mod_pos_bound (z + 2 ^ 31) (2 ^ 32) ltac:(lia)). lia.
Qed.

Lemma char_value_range (ch : char) : -128 <= char_value ch <= 127.
Proof. destruct ch; vm_compute; split; discriminate. Qed.

Lemma bind_Ok {A B : Type} (a : A) (k : A -> Result B) : bind (Ok a) k = k a.
Proof. reflexivity. Qed.

Lemma bind_Err {A B : Type} (f : Fault) (k : A -> Result B) :
  bind (Err f) k = Err f.
Proof. reflexivity. Qed.

(** ** The classification tables *)

Lemma char_value_inj (a b : char) : char_value a = char_value b -> a = b.
Proof.
  intro H.
  assert (E : Byte.to_N a = Byte.to_N b).
  { unfold char_value in H.
    pose proof (Byte.to_N_bounded a). pose proof (Byte.to_N_bounded b).
    destruct (Z.ltb_spec (Z.of_N (Byte.to_N a)) 128);
      destruct (Z.ltb_spec (Z.of_N (Byte.to_N b)) 128); lia. }
  pose proof (Byte.of_to_N a) as Ha. pose proof (Byte.of_to_N b) as Hb.
  rewrite E in Ha. congruence.
Qed.

Lemma array_at_in_range {T : Type} (a : list T) (idx : Z) :
  0 <= idx < Z.of_nat (length a) -> exists x, array_at a idx = Some x.
Proof.
  intros [H0 H1]. unfold array_at.
  destruct (Z.ltb_spec idx 0); [lia |].
  destruct (nth_error a (Z.to_nat idx)) eqn:E; [eauto |].
  apply nth_error_None in E. lia.
Qed.

Lemma parse_flag_slot_defined (pf : ParseFlagMap) (ch : char) :
  BasicCSVParser.parse_flag_slot pf ch = Some (BasicCSVParser.parse_flag pf ch).
Proof.
  unfold BasicCSVParser.parse_flag.
  destruct (@array_at_in_range _ (pf_slots pf) (char_value ch + 128)) as [x Hx].
  { rewrite (pf_extent pf). pose proof (char_value_range ch). lia. }
  unfold BasicCSVParser.parse_flag_slot. rewrite Hx. reflexivity.
Qed.

Lemma ws_flag_slot_defined (ws : WhitespaceMap) (ch : char) :
  BasicCSVParser.ws_flag_slot ws ch = Some (BasicCSVParser.ws_flag ws ch).
Proof.
  unfold BasicCSVParser.ws_flag.
  destruct (@array_at_in_range _ (ws_slots ws) (char_value ch + 128)) as [x Hx].
  { rewrite (ws_extent ws). pose proof (char_value_range ch). lia. }
  unfold BasicCSVParser.ws_flag_slot. rewrite Hx. reflexivity.
Qed.

(** C7.  For every [char] value, the negative ones that stand for the bytes
    128-255 included, the index [ch + 128] of [parse_flag] and [ws_flag]
    lies within the 256 entries of the table, the access finds an entry in
    both tables (the tag the function returns), and two different bytes
    never share a slot. *)
Theorem classification_index_in_table
  (pf : ParseFlagMap) (ws : WhitespaceMap) (ch : char) :
  0 <= char_value ch + 128 < Z.of_nat (length (pf_slots pf)) /\
  0 <= char_value ch + 128 < Z.of_nat (length (ws_slots ws)) /\
  Z.of_nat (length (pf_slots pf)) = 256 /\
  Z.of_nat (length (ws_slots ws)) = 256 /\
  BasicCSVParser.parse_flag_slot pf ch
    = Some (BasicCSVParser.parse_flag pf ch) /\
  BasicCSVParser.ws_flag_slot ws ch
    = Some (BasicCSVParser.ws_flag ws ch) /\
  (forall ch' : char,
      char_value ch' + 128 = char_value ch + 128 -> ch' = ch).
Proof.
  pose proof (char_value_range ch) as R.
  rewrite (pf_extent pf), (ws_extent ws).
  repeat split; try lia.
  - apply parse_flag_slot_defined.
  - apply ws_flag_slot_defined.
  - intros ch' E. apply char_value_inj. lia.
Qed.

(** ** The row channel *)

Section ChannelFacts.

Variable T : Type.

Lemma push_back_data (item : T) (q : ThreadSafeDeque.t T) :
  ThreadSafeDeque.data (ThreadSafeDeque.push_back item q)
  = ThreadSafeDeque.data q ++ [item].
Proof. reflexivity. Qed.

Lemma pop_front_cons (q : ThreadSafeDeque.t T) (x : T) (rest : list T) :
  ThreadSafeDeque.data q = x :: rest ->
  exists q',
    ThreadSafeDeque.pop_front q = ThreadSafeDeque.Returns (x, q') /\
    ThreadSafeDeque.data q' = rest /\
    ThreadSafeDeque.stop_waiting q' = ThreadSafeDeque.stop_waiting q.
Proof.
  intro H. unfold ThreadSafeDeque.pop_front. simpl. rewrite H.
  eexists. split; [reflexivity |]. split; reflexivity.
Qed.

Lemma pop_front_nil (q : ThreadSafeDeque.t T) :
  ThreadSafeDeque.data q = [] ->
  ThreadSafeDeque.pop_front q = ThreadSafeDeque.Undefined.
Proof.
  intro H. unfold ThreadSafeDeque.pop_front. simpl. rewrite H. reflexivity.
Qed.

End ChannelFacts.

(** C4.  Not every member function holds [_lock] while it touches [data].
    On a channel that holds one pushed row, [push_back], [pop_front],
    [wait_for_data], [start_waiters] and [stop_waiters] leave a log of
    guarded accesses only; [empty], [front], [operator[]], [size],
    [begin], [end] and [clear] each leave an access made without the lock,
    as the log of [size] shows. *)
Theorem unlocked_accessors_touch_data (x : nat) :
  let q := ThreadSafeDeque.push_back x ThreadSafeDeque.default in
  ThreadSafeDeque.all_guarded q = true /\
  (forall c q',
      ThreadSafeDeque.exec c q = ThreadSafeDeque.Returns q' ->
      ThreadSafeDeque.all_guarded (snd q') =
      match c with
      | ThreadSafeDeque.CallPushBack _
      | ThreadSafeDeque.CallPopFront
      | ThreadSafeDeque.CallWaitForData
      | ThreadSafeDeque.CallStartWaiters
      | ThreadSafeDeque.CallStopWaiters => true
      | _ => false
      end) /\
  ThreadSafeDeque.accesses (snd (ThreadSafeDeque.size q))
  = [ThreadSafeDeque.Guarded; ThreadSafeDeque.Unguarded].
Proof.
  simpl. split; [reflexivity |]. split; [| reflexivity].
  intros c q' H.
  destruct c; simpl in H; try (inversion H; subst; reflexivity).
  - (* operator[] *)
    unfold ThreadSafeDeque.index in H. simpl in H.
    destruct (array_at [x] n); simpl in H; inversion H; subst; reflexivity.
Qed.

(** C5.  Whatever sequence of [push_back] and [pop_front] calls runs on the
    channel without popping from an empty deque, the calls all return, and
    the rows popped followed by the rows still queued are the rows that
    were queued at the start followed by the rows pushed, in push order:
    [pop_front] hands rows out in the order they were pushed. *)
Theorem channel_is_fifo (T : Type)
  (ops : list (ThreadSafeDeque.QueueOp T)) (q : ThreadSafeDeque.t T) :
  ThreadSafeDeque.pops_covered ops (length (ThreadSafeDeque.data q)) = true ->
  exists outs q',
    ThreadSafeDeque.run ops q = ThreadSafeDeque.Returns (outs, q') /\
    outs ++ ThreadSafeDeque.data q'
    = ThreadSafeDeque.data q ++ ThreadSafeDeque.pushed ops.
Proof.
  revert q. induction ops as [| op ops IH]; intros q Hc.
  - exists [], q. simpl. rewrite app_nil_r. split; reflexivity.
  - destruct op as [item |].
    + simpl in Hc.
      destruct (IH (ThreadSafeDeque.push_back item q)) as (outs & q' & Hr & He).
      { rewrite push_back_data, length_app. simpl.
        rewrite Nat.add_1_r. exact Hc. }
      exists outs, q'. split; [exact Hr |].
      rewrite He, push_back_data, <- app_assoc. reflexivity.
    + simpl in Hc.
      destruct (ThreadSafeDeque.data q) as [| x rest] eqn:Hd;
        [discriminate |].
      destruct (@pop_front_cons T q x rest Hd) as (q1 & Hp & Hd1 & _).
      destruct (IH q1) as (outs & q' & Hr & He).
      { rewrite Hd1. exact Hc. }
      exists (x :: outs), q'. simpl. rewrite Hp, Hr.
      split; [reflexivity |].
      simpl. rewrite He, Hd1. reflexivity.
Qed.


Lemma channel_is_fifo_witness :
  exists outs q',
    ThreadSafeDeque.run
      [ThreadSafeDeque.Push 1%nat; ThreadSafeDeque.Push 2%nat;
       ThreadSafeDeque.Pop; ThreadSafeDeque.Push 3%nat; ThreadSafeDeque.Pop]
      ThreadSafeDeque.default
    = ThreadSafeDeque.Returns (outs, q') /\
    outs ++ ThreadSafeDeque.data q' = [] ++ [1%nat; 2%nat; 3%nat].
Proof.
  apply (@channel_is_fifo nat
           [ThreadSafeDeque.Push 1%nat; ThreadSafeDeque.Push 2%nat;
            ThreadSafeDeque.Pop; ThreadSafeDeque.Push 3%nat;
            ThreadSafeDeque.Pop]
           ThreadSafeDeque.default).
  reflexivity.
Defined.

(** No member function has a throw of its own: with callees that work,
    no call leaves by an exception. *)
Lemma exec_never_throws (T : Type)
  (c : ThreadSafeDeque.Call T) (q : ThreadSafeDeque.t T) :
  ThreadSafeDeque.exec c q <> ThreadSafeDeque.Throws.
Proof.
  destruct c; simpl; try discriminate.
  - unfold ThreadSafeDeque.front. simpl.
    destruct (ThreadSafeDeque.data q); simpl; discriminate.
  - unfold ThreadSafeDeque.index. simpl.
    destruct (array_at (ThreadSafeDeque.data q) n); simpl; discriminate.
  - unfold ThreadSafeDeque.wait_for_data. simpl.
    destruct (ThreadSafeDeque.data q); simpl;
      destruct (ThreadSafeDeque.stop_waiting q); simpl; discriminate.
  - unfold ThreadSafeDeque.pop_front. simpl.
    destruct (ThreadSafeDeque.data q); simpl; discriminate.
Qed.



(** C10.  A default-constructed channel has [stop_waiting = true], so
    [wait_for_data] on it returns [true] at once although it is empty and
    [stop_waiters] was never called; after [start_waiters] the flag is
    [false] and the same call suspends; and in any state [wait_for_data]
    suspends exactly when the deque is empty and the flag is [false]. *)
Theorem fresh_channel_does_not_block (T : Type) :
  ThreadSafeDeque.stop_waiting (@ThreadSafeDeque.default T) = true /\
  ThreadSafeDeque.data (@ThreadSafeDeque.default T) = [] /\
  (exists q,
      ThreadSafeDeque.wait_for_data (@ThreadSafeDeque.default T)
      = ThreadSafeDeque.Returns (true, q) /\
      ThreadSafeDeque.data q = [] /\
      ThreadSafeDeque.stop_waiting q = true) /\
  ThreadSafeDeque.stop_waiting
    (ThreadSafeDeque.start_waiters (@ThreadSafeDeque.default T)) = false /\
  ThreadSafeDeque.wait_for_data
    (ThreadSafeDeque.start_waiters (@ThreadSafeDeque.default T))
  = ThreadSafeDeque.Blocks /\
  (forall q : ThreadSafeDeque.t T,
      ThreadSafeDeque.wait_for_data q = ThreadSafeDeque.Blocks <->
      ThreadSafeDeque.data q = [] /\ ThreadSafeDeque.stop_waiting q = false).
Proof.
  split; [reflexivity |]. split; [reflexivity |].
  split; [eexists; split; [reflexivity | split; reflexivity] |].
  split; [reflexivity |]. split; [reflexivity |].
  intro q. unfold ThreadSafeDeque.wait_for_data. simpl.
  destruct (ThreadSafeDeque.data q) as [| x rest];
    destruct (ThreadSafeDeque.stop_waiting q); simpl;
    split; intro H; try discriminate; try tauto;
    destruct H; discriminate.
Qed.

(** ** [push_row] *)

(** C8.  [push_row] appends one row to the channel, the row it was given
    with [row_length] set to [fields.size() - field_bounds_index]; the
    row's field range therefore ends at the length the field store has at
    the moment of the push. *)
Theorem push_row_ends_at_store_length
  (row : CSVRow) (fields : list RawCSVField) (records : RowCollection) :
  0 <= field_bounds_index row <= Z.of_nat (length fields) ->
  Z.of_nat (length fields) < 2 ^ 64 ->
  exists pushed,
    ThreadSafeDeque.data (BasicCSVParser.push_row row fields records)
    = ThreadSafeDeque.data records ++ [pushed] /\
    data_start pushed = data_start row /\
    field_bounds_index pushed = field_bounds_index row /\
    row_length pushed = Z.of_nat (length fields) - field_bounds_index row /\
    field_bounds_index pushed + row_length pushed = Z.of_nat (length fields).
Proof.
  intros Hb Hs. eexists. split; [reflexivity |].
  simpl. rewrite wrap64_small by lia.
  repeat split; lia.
Qed.

Lemma push_row_ends_at_store_length_witness :
  exists pushed,
    ThreadSafeDeque.data
      (BasicCSVParser.push_row
         {| data_start := 4; field_bounds_index := 1; row_length := 0 |}
         [ {| rf_start := 0; rf_length := 1; rf_has_double_quote := false |};
           {| rf_start := 0; rf_length := 2; rf_has_double_quote := false |};
           {| rf_start := 3; rf_length := 1; rf_has_double_quote := true |} ]
         ThreadSafeDeque.default)
    = ThreadSafeDeque.data (@ThreadSafeDeque.default CSVRow) ++ [pushed] /\
    data_start pushed = 4 /\
    field_bounds_index pushed = 1 /\
    row_length pushed = 3 - 1 /\
    field_bounds_index pushed + row_length pushed = 3.
Proof.
  apply (@push_row_ends_at_store_length
           {| data_start := 4; field_bounds_index := 1; row_length := 0 |}
           [ {| rf_start := 0; rf_length := 1; rf_has_double_quote := false |};
             {| rf_start := 0; rf_length := 2; rf_has_double_quote := false |};
             {| rf_start := 3; rf_length := 1; rf_has_double_quote := true |} ]
           ThreadSafeDeque.default).
  - simpl. lia.
  - simpl. lia.
Defined.

(** ** Spans *)

Lemma sv_at_in (s : string_view) (j : Z) :
  0 <= j < sv_size s -> exists ch, sv_at s j = Ok ch.
Proof.
  intros [H0 H1]. unfold sv_at.
  destruct (Z.leb_spec 0 j); [| lia].
  destruct (Z.ltb_spec j (sv_size s)); [| lia]. simpl.
  destruct (nth_error s (Z.to_nat j)) eqn:E; [eauto |].
  apply nth_error_None in E. unfold sv_size in H1. lia.
Qed.

Lemma sv_at_Ok_inv (s : string_view) (j : Z) (ch : char) :
  sv_at s j = Ok ch ->
  0 <= j < sv_size s /\ nth_error s (Z.to_nat j) = Some ch.
Proof.
  unfold sv_at.
  destruct (Z.leb_spec 0 j); destruct (Z.ltb_spec j (sv_size s)); simpl;
    try discriminate.
  destruct (nth_error s (Z.to_nat j)) eqn:E; [| discriminate].
  intro Hq. inversion Hq. subst. split; [lia | reflexivity].
Qed.

Lemma sv_at_out (s : string_view) (j : Z) :
  j < 0 \/ sv_size s <= j -> sv_at s j = Err (OutOfBounds j).
Proof.
  intro H. unfold sv_at.
  destruct (Z.leb_spec 0 j); destruct (Z.ltb_spec j (sv_size s)); simpl;
    try reflexivity.
  lia.
Qed.

(** Every fault of a read names an index outside the span. *)
Lemma sv_at_Err_inv (s : string_view) (j : Z) (f : Fault) :
  sv_at s j = Err f -> f = OutOfBounds j /\ (j < 0 \/ sv_size s <= j).
Proof.
  intro H.
  destruct (Z.lt_ge_cases j 0) as [L | L].
  - rewrite sv_at_out in H by lia. inversion H. split; [reflexivity | lia].
  - destruct (Z.lt_ge_cases j (sv_size s)) as [U | U].
    + destruct (@sv_at_in s j) as [ch Hc]; [lia | congruence].
    + rewrite sv_at_out in H by lia. inversion H. split; [reflexivity | lia].
Qed.

Lemma sv_size_nonneg (s : string_view) : 0 <= sv_size s.
Proof. unfold sv_size. lia. Qed.

(** ** The loops of [parse_field] *)

Section LoopFacts.

Variable ws : WhitespaceMap.

(** [while (i < in.size() && P(in[i])) i++] returns, with every byte it
    stepped over satisfying [P] and the byte it stops at, if any, not. *)
Lemma advance_while_spec (P : char -> bool) (in_ : string_view) :
  forall (fuel : nat) (i : Z),
    0 <= i ->
    (Z.to_nat (sv_size in_ - i) < fuel)%nat ->
    exists i',
      BasicCSVParser.advance_while P fuel in_ i = Ok i' /\
      i <= i' /\
      (i <= sv_size in_ -> i' <= sv_size in_) /\
      (forall k, i <= k < i' ->
                 exists ch, sv_at in_ k = Ok ch /\ P ch = true) /\
      (i' < sv_size in_ ->
       exists ch, sv_at in_ i' = Ok ch /\ P ch = false).
Proof.
  induction fuel as [| fuel IH]; intros i H0 Hf; [lia |].
  simpl.
  destruct (Z.ltb_spec i (sv_size in_)) as [Hlt | Hge].
  - destruct (@sv_at_in in_ i) as [ch Hch]; [lia |].
    rewrite Hch. simpl.
    destruct (P ch) eqn:HP.
    + destruct (IH (i + 1)) as (i' & Hr & Hle & Hsz & Hall & Hstop);
        [lia | lia |].
      exists i'. split; [exact Hr |]. split; [lia |]. split; [lia |].
      split; [| exact Hstop].
      intros k Hk. destruct (Z.eq_dec k i) as [-> | Hne].
      * exists ch. split; assumption.
      * apply Hall. lia.
    + exists i. split; [reflexivity |]. split; [lia |]. split; [lia |].
      split; [intros k Hk; lia |].
      intros _. exists ch. split; assumption.
  - exists i. split; [reflexivity |]. split; [lia |]. split; [lia |].
    split; [intros k Hk; lia | lia].
Qed.

Lemma advance_while_ext (P Q : char -> bool) (in_ : string_view) :
  (forall ch, P ch = Q ch) ->
  forall (fuel : nat) (i : Z),
    BasicCSVParser.advance_while P fuel in_ i
    = BasicCSVParser.advance_while Q fuel in_ i.
Proof.
  intro E. induction fuel as [| fuel IH]; intro i; [reflexivity |].
  simpl. destruct (i <? sv_size in_); [| reflexivity].
  destruct (sv_at in_ i) as [ch |]; simpl; [| reflexivity].
  rewrite E. destruct (Q ch); [apply IH | reflexivity].
Qed.

(** The trailing trim returns when, walking down from [j], it meets a byte
    at some index [k >= 0] that is not whitespace, or has used up
    [field_length] by then; it removes at most [j - k] bytes. *)
Lemma trim_trailing_stops (in_ : string_view) (k : Z) :
  sv_size in_ <= 2 ^ 64 ->
  forall (fuel : nat) (j fl : Z),
    0 <= k <= j ->
    j < sv_size in_ ->
    (Z.to_nat (j - k) < fuel)%nat ->
    (fl <= j - k \/
     exists ch, sv_at in_ k = Ok ch /\ BasicCSVParser.ws_flag ws ch = false) ->
    exists fl',
      BasicCSVParser.trim_trailing ws fuel in_ j fl = Ok fl' /\
      fl' <= fl /\ fl - fl' <= j - k /\ (0 <= fl -> 0 <= fl').
Proof.
  intro Hsz.
  induction fuel as [| fuel IH]; intros j fl Hk Hj Hf Hstop; [lia |].
  simpl.
  destruct (@sv_at_in in_ j) as [ch Hch]; [lia |].
  rewrite Hch. simpl.
  destruct (BasicCSVParser.ws_flag ws ch) eqn:Hws; simpl.
  - destruct (Z.ltb_spec 0 fl) as [Hpos | Hnp].
    + assert (Hjk : k < j).
      { destruct (Z.eq_dec k j) as [-> | Hne]; [| lia].
        destruct Hstop as [Hfl | (ch' & Hch' & Hws')]; [lia |].
        congruence. }
      rewrite wrap64_small by lia.
      destruct (IH (j - 1) (fl - 1)) as (fl' & Hr & H1 & H2 & H3);
        [lia | lia | lia | |].
      { destruct Hstop as [Hfl | Hnw]; [left; lia | right; exact Hnw]. }
      exists fl'. split; [exact Hr |]. lia.
    + exists fl. split; [reflexivity |]. lia.
  - exists fl. split; [reflexivity |]. lia.
Qed.

(** When the [fl] bytes below index [j], [j] included, are all whitespace
    and one more index below them is in the span, the trim ends on 0. *)
Lemma trim_trailing_all_ws (in_ : string_view) :
  sv_size in_ <= 2 ^ 64 ->
  forall (fuel : nat) (j fl : Z),
    0 <= fl <= j ->
    j < sv_size in_ ->
    (Z.to_nat fl < fuel)%nat ->
    (forall m, j - fl < m <= j ->
               exists ch, sv_at in_ m = Ok ch /\
                          BasicCSVParser.ws_flag ws ch = true) ->
    BasicCSVParser.trim_trailing ws fuel in_ j fl = Ok 0.
Proof.
  intro Hsz.
  induction fuel as [| fuel IH]; intros j fl Hfl Hj Hf Hall; [lia |].
  simpl.
  destruct (@sv_at_in in_ j) as [ch Hch]; [lia |].
  rewrite Hch. simpl.
  destruct (Z.ltb_spec 0 fl) as [Hpos | Hnp].
  - destruct (Hall j) as (ch' & Hch' & Hws'); [lia |].
    assert (ch' = ch) by congruence. subst ch'.
    rewrite Hws'. simpl.
    rewrite wrap64_small by lia.
    apply IH; [lia | lia | lia |].
    intros m Hm. apply Hall. lia.
  - rewrite andb_false_r. f_equal. lia.
Qed.

End LoopFacts.

(** ** [parse_field] *)

Section ParseFieldFacts.

Variable pf : ParseFlagMap.
Variable ws : WhitespaceMap.

(** The two forward loops always return; what is left of [parse_field] is
    the trailing trim, started at [i - 1] with the length measured from the
    field start. *)
Lemma parse_field_stages (QuoteEscape : bool) (in_ : string_view)
  (i fs crs : Z) :
  0 <= i <= sv_size in_ ->
  exists i1 i2,
    i <= i1 /\ i1 <= i2 /\ i2 <= sv_size in_ /\
    (forall k, i <= k < i1 ->
       exists ch, sv_at in_ k = Ok ch /\
                  BasicCSVParser.ws_flag ws ch = true) /\
    (i1 < sv_size in_ ->
       exists ch, sv_at in_ i1 = Ok ch /\
                  BasicCSVParser.ws_flag ws ch = false) /\
    (forall k, i1 <= k < i2 ->
       exists ch, sv_at in_ k = Ok ch /\
                  BasicCSVParser.scan_continues pf QuoteEscape ch = true) /\
    (i2 < sv_size in_ ->
       exists ch, sv_at in_ i2 = Ok ch /\
                  BasicCSVParser.scan_continues pf QuoteEscape ch = false) /\
    BasicCSVParser.parse_field pf ws QuoteEscape in_ i fs crs =
    (let fs' := if fs <? 0 then to_int (wrap64 (i1 - crs)) else fs in
     fl <- BasicCSVParser.trim_trailing ws (S (length in_)) in_
             (wrap64 (i2 - 1)) (wrap64 (i2 - wrap64 (fs' + crs))) ;;
     Ok {| fc_i := i2; fc_field_start := fs'; fc_field_length := fl |}).
Proof.
  intros [H0 H1].
  destruct (@advance_while_spec (BasicCSVParser.ws_flag ws) in_
              (S (length in_)) i)
    as (i1 & Hr1 & Hle1 & Hsz1 & Hall1 & Hstop1);
    [lia | unfold sv_size; lia |].
  destruct (@advance_while_spec (BasicCSVParser.scan_continues pf QuoteEscape)
              in_ (S (length in_)) i1)
    as (i2 & Hr2 & Hle2 & Hsz2 & Hall2 & Hstop2);
    [lia | unfold sv_size; lia |].
  exists i1, i2.
  repeat (split; [solve [auto; lia] |]).
  unfold BasicCSVParser.parse_field. cbv zeta.
  rewrite Hr1, bind_Ok, Hr2, bind_Ok. reflexivity.
Qed.

(** C3.  A field made of whitespace bytes only, the bytes [in[i, e)] with
    [e] the end of the span or a byte that is neither whitespace nor
    continues the scan, comes out of [parse_field] with length zero: both
    when the field start is still unset (and the offset of [e] from the row
    start fits the [int] it is stored in) and when the caller had already
    set it to [i]. *)
Theorem whitespace_field_has_length_zero (QuoteEscape : bool)
  (in_ : string_view) (i e fs crs : Z) :
  sv_size in_ < 2 ^ 64 ->
  0 <= i < e ->
  e <= sv_size in_ ->
  (forall k, i <= k < e ->
     exists ch, sv_at in_ k = Ok ch /\ BasicCSVParser.ws_flag ws ch = true) ->
  (e < sv_size in_ ->
     exists ch, sv_at in_ e = Ok ch /\
                BasicCSVParser.ws_flag ws ch = false /\
                BasicCSVParser.scan_continues pf QuoteEscape ch = false) ->
  (fs < 0 /\ 0 <= e - crs < 2 ^ 31) \/
  (0 <= fs /\ wrap64 (fs + crs) = i /\ 1 <= i) ->
  exists c,
    BasicCSVParser.parse_field pf ws QuoteEscape in_ i fs crs = Ok c /\
    fc_i c = e /\
    fc_field_length c = 0.
Proof.
  intros Hsz Hie He Hall Hend Hfs.
  destruct (@parse_field_stages QuoteEscape in_ i fs crs)
    as (i1 & i2 & Hle1 & Hle2 & Hsz2 & Hws1 & Hstop1 & Hsc & Hstop2 & Heq);
    [lia |].
  assert (Hi1 : i1 = e).
  { destruct (Z.lt_trichotomy i1 e) as [L | [E | G]]; [| exact E |].
    - destruct Hstop1 as (ch & Hch & Hw); [lia |].
      destruct (Hall i1) as (ch' & Hch' & Hw'); [lia |]. congruence.
    - destruct Hend as (ch & Hch & Hw & _); [lia |].
      destruct (Hws1 e) as (ch' & Hch' & Hw'); [lia |]. congruence. }
  assert (Hi2 : i2 = e).
  { destruct (Z.eq_dec i2 e) as [E | N]; [exact E |].
    destruct Hend as (ch & Hch & _ & Hs); [lia |].
    destruct (Hsc e) as (ch' & Hch' & Hs'); [lia |]. congruence. }
  subst i1 i2.
  rewrite Heq. cbv zeta.
  assert (Hj : wrap64 (e - 1) = e - 1) by (apply wrap64_small; lia).
  rewrite Hj.
  destruct Hfs as [[Hneg Hint] | (Hpos & Hstart & Hi)].
  - destruct (Z.ltb_spec fs 0) as [_ | ?]; [| lia].
    rewrite to_int_wrap64, to_int_small by lia.
    replace (e - crs + crs) with e by ring.
    rewrite wrap64_sub_r, Z.sub_diag. change (wrap64 0) with 0.
    rewrite (@trim_trailing_all_ws ws in_ ltac:(lia) (S (length in_)) (e - 1) 0);
      [| lia | lia | simpl; lia | intros m Hm; lia].
    simpl. eexists. split; [reflexivity |]. split; reflexivity.
  - destruct (Z.ltb_spec fs 0) as [? | _]; [lia |].
    rewrite Hstart. rewrite (@wrap64_small (e - i)) by lia.
    rewrite (@trim_trailing_all_ws ws in_ ltac:(lia) (S (length in_))
               (e - 1) (e - i));
      [| lia | lia | unfold sv_size in *; lia
       | intros m Hm; apply Hall; lia].
    simpl. eexists. split; [reflexivity |]. split; reflexivity.
Qed.

End ParseFieldFacts.

Lemma whitespace_field_has_length_zero_witness :
  exists c,
    BasicCSVParser.parse_field comma_flags space_tab_ws false
      (bytes "  ,b") 0 (-1) 0 = Ok c /\
    fc_i c = 2 /\
    fc_field_length c = 0.
Proof.
  apply (@whitespace_field_has_length_zero comma_flags space_tab_ws false
           (bytes "  ,b") 0 2 (-1) 0).
  - reflexivity.
  - lia.
  - vm_compute. discriminate.
  - intros k Hk.
    assert (k = 0 \/ k = 1) as [-> | ->] by lia;
      eexists; split; reflexivity.
  - intros _. eexists. split; [reflexivity | split; reflexivity].
  - left. lia.
Defined.

Section ParseFieldSafety.

Variable pf : ParseFlagMap.
Variable ws : WhitespaceMap.

(** The fuel of the trailing trim is enough: the loop either returns or
    stops at a read outside the span. *)
Lemma trim_trailing_has_fuel (in_ : string_view) :
  sv_size in_ < 2 ^ 64 ->
  forall (fuel : nat) (j fl : Z),
    (1 <= fuel)%nat ->
    (0 <= j < sv_size in_ -> (Z.to_nat j + 1 < fuel)%nat) ->
    BasicCSVParser.trim_trailing ws fuel in_ j fl <> Err OutOfFuel.
Proof.
  intro Hsz.
  induction fuel as [| fuel IH]; intros j fl H1 Hj; [lia |].
  simpl.
  destruct (sv_at in_ j) as [ch | f] eqn:Hch.
  - apply sv_at_Ok_inv in Hch. destruct Hch as [Hin _].
    specialize (Hj Hin). simpl.
    destruct (BasicCSVParser.ws_flag ws ch && (0 <? fl)); [| discriminate].
    apply IH; [lia |].
    intros Hin'.
    destruct (Z.eq_dec j 0) as [-> | Hne].
    + change (wrap64 (0 - 1)) with (2 ^ 64 - 1) in Hin'. lia.
    + rewrite wrap64_small in * by lia. lia.
  - apply sv_at_Err_inv in Hch. destruct Hch as [-> _]. simpl. discriminate.
Qed.

(** A fault of the trailing trim names an index outside the span. *)
Lemma trim_trailing_fault (in_ : string_view) :
  forall (fuel : nat) (j fl j' : Z),
    BasicCSVParser.trim_trailing ws fuel in_ j fl = Err (OutOfBounds j') ->
    j' < 0 \/ sv_size in_ <= j'.
Proof.
  induction fuel as [| fuel IH]; intros j fl j' Ht; [discriminate |].
  simpl in Ht.
  destruct (sv_at in_ j) as [ch | f] eqn:Hch.
  - simpl in Ht.
    destruct (BasicCSVParser.ws_flag ws ch && (0 <? fl));
      [eapply IH; exact Ht | discriminate].
  - apply sv_at_Err_inv in Hch. destruct Hch as [-> Hout].
    simpl in Ht. inversion Ht. subst. exact Hout.
Qed.

(** [parse_field] never runs out of fuel: started inside the span it
    returns, or it stops at a read outside the span. *)
Lemma parse_field_has_fuel (QuoteEscape : bool) (in_ : string_view)
  (i fs crs : Z) :
  sv_size in_ < 2 ^ 64 ->
  0 <= i <= sv_size in_ ->
  (exists c, BasicCSVParser.parse_field pf ws QuoteEscape in_ i fs crs = Ok c)
  \/
  (exists j, BasicCSVParser.parse_field pf ws QuoteEscape in_ i fs crs
             = Err (OutOfBounds j) /\ (j < 0 \/ sv_size in_ <= j)).
Proof.
  intros Hsz Hi.
  destruct (@parse_field_stages pf ws QuoteEscape in_ i fs crs Hi)
    as (i1 & i2 & _ & _ & Hi2 & _ & _ & _ & _ & Heq).
  rewrite Heq. cbv zeta.
  set (fs' := if fs <? 0 then to_int (wrap64 (i1 - crs)) else fs).
  set (fl0 := wrap64 (i2 - wrap64 (fs' + crs))).
  pose proof (@trim_trailing_has_fuel in_ Hsz (S (length in_))
                (wrap64 (i2 - 1)) fl0) as Hfuel.
  destruct (BasicCSVParser.trim_trailing ws (S (length in_)) in_
              (wrap64 (i2 - 1)) fl0) as [fl | f] eqn:Ht.
  - left. eexists. reflexivity.
  - right. destruct f as [j |].
    + exists j. split; [reflexivity |].
      eapply trim_trailing_fault. exact Ht.
    + exfalso. apply Hfuel; [lia | | reflexivity].
      intros Hin. unfold sv_size in *. lia.
Qed.

End ParseFieldSafety.

(** ** The fast scan inside a quote-escape region *)

Section QuoteEscapeScan.

Variable pf : ParseFlagMap.
Variable ws : WhitespaceMap.

Lemma parse_flag_quoted_view (ch : char) :
  BasicCSVParser.parse_flag (quoted_view pf) ch
  = BasicCSVParser.ordinary_unless_quote (BasicCSVParser.parse_flag pf ch).
Proof.
  pose proof (parse_flag_slot_defined pf ch) as H.
  unfold BasicCSVParser.parse_flag at 1.
  unfold BasicCSVParser.parse_flag_slot, array_at in *. simpl.
  destruct (char_value ch + 128 <? 0); [discriminate |].
  rewrite nth_error_map, H. reflexivity.
Qed.

Lemma scan_continues_quoted_view (ch : char) :
  BasicCSVParser.scan_continues pf true ch
  = BasicCSVParser.scan_continues (quoted_view pf) false ch.
Proof.
  unfold BasicCSVParser.scan_continues. rewrite parse_flag_quoted_view.
  destruct (BasicCSVParser.parse_flag pf ch); reflexivity.
Qed.

(** [parse_field<true>] is [parse_field<false>] run with the table in which
    delimiters and newlines are ordinary bytes. *)
Lemma parse_field_quoted_view (in_ : string_view) (i fs crs : Z) :
  BasicCSVParser.parse_field pf ws true in_ i fs crs
  = BasicCSVParser.parse_field (quoted_view pf) ws false in_ i fs crs.
Proof.
  unfold BasicCSVParser.parse_field. cbv zeta.
  destruct (BasicCSVParser.advance_while (BasicCSVParser.ws_flag ws)
              (S (length in_)) in_ i) as [i1 | f]; [| reflexivity].
  rewrite !bind_Ok.
  rewrite (@advance_while_ext
             (BasicCSVParser.scan_continues pf true)
             (BasicCSVParser.scan_continues (quoted_view pf) false)
             in_ scan_continues_quoted_view).
  reflexivity.
Qed.


End QuoteEscapeScan.


(** ** Spans that extend or embed one another *)

Lemma sv_at_app_l (a b : string_view) (k : Z) :
  k < sv_size a -> sv_at (a ++ b) k = sv_at a k.
Proof.
  intro Hk. unfold sv_at, sv_size in *. rewrite length_app.
  destruct (Z.leb_spec 0 k); simpl; [| reflexivity].
  destruct (Z.ltb_spec k (Z.of_nat (length a))); [| lia].
  destruct (Z.ltb_spec k (Z.of_nat (length a + length b))); [| lia].
  rewrite nth_error_app1 by lia. reflexivity.
Qed.

Lemma sv_at_app_r (a b : string_view) (k : Z) (ch : char) :
  0 <= k ->
  sv_at (a ++ b) (sv_size a + k) = Ok ch <-> sv_at b k = Ok ch.
Proof.
  intro Hk. unfold sv_at, sv_size. rewrite length_app.
  destruct (Z.leb_spec 0 (Z.of_nat (length a) + k)); [| lia].
  destruct (Z.leb_spec 0 k); [| lia]. simpl.
  replace (Z.to_nat (Z.of_nat (length a) + k))
    with (length a + Z.to_nat k)%nat by lia.
  rewrite nth_error_app2 by lia.
  replace (length a + Z.to_nat k - length a)%nat with (Z.to_nat k) by lia.
  destruct (Z.ltb_spec k (Z.of_nat (length b)));
    destruct (Z.ltb_spec (Z.of_nat (length a) + k)
                (Z.of_nat (length a + length b))); try lia.
  - destruct (nth_error b (Z.to_nat k)); split; intro E;
      inversion E; reflexivity.
  - split; discriminate.
Qed.

Lemma sv_size_app (a b : string_view) :
  sv_size (a ++ b) = sv_size a + sv_size b.
Proof. unfold sv_size. rewrite length_app. lia. Qed.

Lemma stops_unique (P : char -> bool) (in_ : string_view) (i x y : Z) :
  stops P in_ i x -> stops P in_ i y -> x = y.
Proof.
  intros (Hx & Hax & Hsx) (Hy & Hay & Hsy).
  destruct (Z.lt_trichotomy x y) as [L | [E | G]]; [| exact E |].
  - destruct Hsx as (c & Hc & Hp); [lia |].
    destruct (Hay x) as (c' & Hc' & Hp'); [lia |]. congruence.
  - destruct Hsy as (c & Hc & Hp); [lia |].
    destruct (Hax y) as (c' & Hc' & Hp'); [lia |]. congruence.
Qed.

Lemma stops_prefix (P : char -> bool) (a b : string_view) (i x : Z) :
  0 <= i ->
  stops P a i x -> x < sv_size a -> stops P (a ++ b) i x.
Proof.
  intros Hi (Hx & Hall & Hstop) Hlt. pose proof (sv_size_nonneg b).
  split; [rewrite sv_size_app; lia |]. split.
  - intros k Hk. rewrite sv_at_app_l by lia. apply Hall. exact Hk.
  - intros _. rewrite sv_at_app_l by lia. apply Hstop. exact Hlt.
Qed.

Lemma stops_across (P : char -> bool) (a b : string_view) (i y : Z) :
  0 <= i ->
  stops P a i (sv_size a) ->
  stops P (a ++ b) (sv_size a) y ->
  stops P (a ++ b) i y.
Proof.
  intros Hi (Hx & Hall & _) (Hy & Hall' & Hstop').
  split; [lia |]. split; [| exact Hstop'].
  intros k Hk. destruct (Z.lt_ge_cases k (sv_size a)) as [L | G].
  - rewrite sv_at_app_l by lia. apply Hall. lia.
  - apply Hall'. lia.
Qed.

Lemma stops_suffix (P : char -> bool) (a b : string_view) (i x : Z) :
  0 <= i ->
  stops P b i x -> stops P (a ++ b) (sv_size a + i) (sv_size a + x).
Proof.
  intros Hi (Hx & Hall & Hstop).
  split; [rewrite sv_size_app; lia |]. split.
  - intros k Hk.
    destruct (Hall (k - sv_size a)) as (c & Hc & Hp); [lia |].
    exists c. split; [| exact Hp].
    replace k with (sv_size a + (k - sv_size a)) by ring.
    apply sv_at_app_r; [lia | exact Hc].
  - rewrite sv_size_app. intro Hlt.
    destruct Hstop as (c & Hc & Hp); [lia |].
    exists c. split; [| exact Hp]. apply sv_at_app_r; [lia | exact Hc].
Qed.

Section Chunking.

Variable pf : ParseFlagMap.
Variable ws : WhitespaceMap.

(** What a returned [parse_field] did. *)
Lemma parse_field_Ok_inv (QuoteEscape : bool) (in_ : string_view)
  (i fs rs : Z) (c : FieldCursor) :
  0 <= i <= sv_size in_ ->
  BasicCSVParser.parse_field pf ws QuoteEscape in_ i fs rs = Ok c ->
  exists i1,
    stops (BasicCSVParser.ws_flag ws) in_ i i1 /\
    stops (BasicCSVParser.scan_continues pf QuoteEscape) in_ i1 (fc_i c) /\
    fc_field_start c = (if fs <? 0 then to_int (wrap64 (i1 - rs)) else fs) /\
    BasicCSVParser.trim_trailing ws (S (length in_)) in_
      (wrap64 (fc_i c - 1)) (wrap64 (fc_i c - wrap64 (fc_field_start c + rs)))
    = Ok (fc_field_length c).
Proof.
  intros Hi H.
  destruct (@parse_field_stages pf ws QuoteEscape in_ i fs rs Hi)
    as (i1 & i2 & Hle1 & Hle2 & Hsz2 & Hws1 & Hstop1 & Hsc & Hstop2 & Heq).
  rewrite Heq in H. cbv zeta in H.
  destruct (BasicCSVParser.trim_trailing ws (S (length in_)) in_
              (wrap64 (i2 - 1))
              (wrap64 (i2 - wrap64
                 ((if fs <? 0 then to_int (wrap64 (i1 - rs)) else fs) + rs))))
    as [fl | f] eqn:Ht; [| discriminate].
  rewrite bind_Ok in H. inversion H. subst c. simpl.
  exists i1. repeat split; try assumption; try lia.
Qed.

(** The converse: the two stopping points and the result of the trim
    determine what [parse_field] returns. *)
Lemma parse_field_Ok_intro (QuoteEscape : bool) (in_ : string_view)
  (i fs rs i1 i2 fl : Z) :
  0 <= i <= sv_size in_ ->
  stops (BasicCSVParser.ws_flag ws) in_ i i1 ->
  stops (BasicCSVParser.scan_continues pf QuoteEscape) in_ i1 i2 ->
  BasicCSVParser.trim_trailing ws (S (length in_)) in_ (wrap64 (i2 - 1))
    (wrap64 (i2 - wrap64
       ((if fs <? 0 then to_int (wrap64 (i1 - rs)) else fs) + rs)))
  = Ok fl ->
  BasicCSVParser.parse_field pf ws QuoteEscape in_ i fs rs
  = Ok {| fc_i := i2;
          fc_field_start :=
            (if fs <? 0 then to_int (wrap64 (i1 - rs)) else fs);
          fc_field_length := fl |}.
Proof.
  intros Hi H1 H2 Ht.
  destruct (@parse_field_stages pf ws QuoteEscape in_ i fs rs Hi)
    as (j1 & j2 & Hle1 & Hle2 & Hsz2 & Hws1 & Hstop1 & Hsc & Hstop2 & Heq).
  assert (E1 : j1 = i1).
  { apply (@stops_unique (BasicCSVParser.ws_flag ws) in_ i);
      [repeat split; try assumption; lia | exact H1]. }
  subst j1.
  assert (E2 : j2 = i2).
  { apply (@stops_unique (BasicCSVParser.scan_continues pf QuoteEscape)
             in_ i1);
      [repeat split; try assumption; lia | exact H2]. }
  subst j2.
  rewrite Heq. cbv zeta. rewrite Ht, bind_Ok. reflexivity.
Qed.

(** The stopping points exist. *)
Lemma stops_exists (P : char -> bool) (in_ : string_view) (i : Z) :
  0 <= i <= sv_size in_ -> exists x, stops P in_ i x.
Proof.
  intros Hi.
  destruct (@advance_while_spec P in_ (S (length in_)) i)
    as (x & _ & Hle & Hsz & Hall & Hstop); [lia | unfold sv_size; lia |].
  exists x. repeat split; try assumption; lia.
Qed.


(** A returned trim read its first index inside the span. *)
Lemma trim_trailing_Ok_index (in_ : string_view) (fuel : nat) (j fl fl' : Z) :
  BasicCSVParser.trim_trailing ws fuel in_ j fl = Ok fl' ->
  0 <= j < sv_size in_.
Proof.
  destruct fuel as [| fuel]; [discriminate |]. simpl.
  destruct (sv_at in_ j) as [ch | f] eqn:Hch; [| discriminate].
  intros _. apply sv_at_Ok_inv in Hch. tauto.
Qed.

(** A returned trim returns the same on any span that holds the same bytes
    at the indices it read, shifted by [d]. *)
Lemma trim_trailing_transfer (in1 in2 : string_view) (d : Z) :
  sv_size in1 < 2 ^ 64 ->
  0 <= d ->
  (forall k ch, 0 <= k -> sv_at in1 k = Ok ch -> sv_at in2 (k + d) = Ok ch) ->
  forall (fuel1 fuel2 : nat) (j fl fl' : Z),
    BasicCSVParser.trim_trailing ws fuel1 in1 j fl = Ok fl' ->
    j + d < 2 ^ 64 ->
    (Z.to_nat j < fuel2)%nat ->
    BasicCSVParser.trim_trailing ws fuel2 in2 (j + d) fl = Ok fl'.
Proof.
  intros Hsz Hd Hagree.
  induction fuel1 as [| fuel1 IH]; intros fuel2 j fl fl' H Hj Hf;
    [discriminate |].
  pose proof (@trim_trailing_Ok_index _ _ _ _ _ H) as Hin.
  simpl in H.
  destruct (sv_at in1 j) as [ch | f] eqn:Hch; [| discriminate].
  rewrite bind_Ok in H.
  destruct fuel2 as [| fuel2]; [lia |]. simpl.
  rewrite (Hagree j ch ltac:(lia) Hch), bind_Ok.
  destruct (BasicCSVParser.ws_flag ws ch && (0 <? fl)); [| exact H].
  pose proof (@trim_trailing_Ok_index _ _ _ _ _ H) as Hin'.
  assert (Hj1 : 1 <= j).
  { destruct (Z.eq_dec j 0) as [-> | N]; [| lia].
    change (wrap64 (0 - 1)) with (2 ^ 64 - 1) in Hin'. lia. }
  rewrite (@wrap64_small (j - 1)) in H by lia.
  rewrite (@wrap64_small (j + d - 1)) by lia.
  replace (j + d - 1) with (j - 1 + d) by ring.
  apply (IH fuel2 (j - 1) (fl - 1) fl' H); lia.
Qed.

(** A trim that starts on a byte that is not whitespace removes nothing. *)
Lemma trim_trailing_kept (in_ : string_view) (fuel : nat) (j fl : Z)
  (ch : char) :
  sv_at in_ j = Ok ch ->
  BasicCSVParser.ws_flag ws ch = false ->
  BasicCSVParser.trim_trailing ws (S fuel) in_ j fl = Ok fl.
Proof.
  intros Hch Hw. simpl. rewrite Hch, bind_Ok, Hw. reflexivity.
Qed.

(** [parse_field] on a chunk that stops before the end of the chunk does
    the same on the whole buffer. *)
Lemma parse_field_prefix (QuoteEscape : bool) (a b : string_view)
  (i fs rs : Z) (c : FieldCursor) :
  sv_size (a ++ b) < 2 ^ 64 ->
  0 <= i <= sv_size a ->
  BasicCSVParser.parse_field pf ws QuoteEscape a i fs rs = Ok c ->
  fc_i c < sv_size a ->
  BasicCSVParser.parse_field pf ws QuoteEscape (a ++ b) i fs rs = Ok c.
Proof.
  intros Hsz Hi H Hlt.
  pose proof (sv_size_nonneg b) as Hb. rewrite sv_size_app in Hsz.
  destruct (@parse_field_Ok_inv _ _ _ _ _ _ Hi H)
    as (i1 & H1 & H2 & Hfs & Ht).
  pose proof (@trim_trailing_Ok_index _ _ _ _ _ Ht) as Hin.
  assert (Hi1 : i <= i1 <= fc_i c) by (destruct H1, H2; lia).
  assert (Hj : 1 <= fc_i c).
  { destruct (Z.eq_dec (fc_i c) 0) as [E | N]; [| lia].
    rewrite E in Hin. change (wrap64 (0 - 1)) with (2 ^ 64 - 1) in Hin.
    lia. }
  rewrite (@wrap64_small (fc_i c - 1)) in Ht by lia.
  rewrite Hfs in Ht.
  pose proof (@parse_field_Ok_intro QuoteEscape (a ++ b) i fs rs i1 (fc_i c)
                (fc_field_length c)) as Hintro.
  rewrite (@wrap64_small (fc_i c - 1)) in Hintro by lia.
  rewrite Hintro.
  - destruct c as [ci cs cl]. simpl in *. subst cs. reflexivity.
  - rewrite sv_size_app. lia.
  - apply stops_prefix; [lia | exact H1 | lia].
  - apply stops_prefix; [lia | exact H2 | lia].
  - replace (fc_i c - 1) with (fc_i c - 1 + 0) by ring.
    apply (@trim_trailing_transfer a (a ++ b) 0 ltac:(lia) ltac:(lia))
      with (fuel1 := S (length a)).
    + intros k ch Hk Hch. rewrite Z.add_0_r.
      rewrite sv_at_app_l; [exact Hch |].
      apply sv_at_Ok_inv in Hch. lia.
    + exact Ht.
    + lia.
    + rewrite length_app. unfold sv_size in *. lia.
Qed.

(** [parse_field] on the second chunk does on the whole buffer what it
    does on the chunk, every index moved by the length of the first
    chunk; the row start is the same stream offset seen from either
    span. *)
Lemma parse_field_suffix (QuoteEscape : bool) (a b : string_view)
  (i fs crs c0 : Z) (c : FieldCursor) :
  sv_size (a ++ b) < 2 ^ 64 ->
  0 <= i <= sv_size b ->
  BasicCSVParser.parse_field pf ws QuoteEscape b i fs
    (wrap64 (crs - (c0 + sv_size a))) = Ok c ->
  BasicCSVParser.parse_field pf ws QuoteEscape (a ++ b) (sv_size a + i) fs
    (wrap64 (crs - c0))
  = Ok {| fc_i := sv_size a + fc_i c;
          fc_field_start := fc_field_start c;
          fc_field_length := fc_field_length c |}.
Proof.
  intros Hsz Hi H.
  pose proof (sv_size_nonneg a) as Ha. rewrite sv_size_app in Hsz.
  destruct (@parse_field_Ok_inv _ _ _ _ _ _ Hi H)
    as (i1 & H1 & H2 & Hfs & Ht).
  pose proof (@trim_trailing_Ok_index _ _ _ _ _ Ht) as Hin.
  assert (Hi1 : i <= i1 <= fc_i c /\ fc_i c <= sv_size b)
    by (destruct H1, H2; lia).
  assert (Hj : 1 <= fc_i c).
  { destruct (Z.eq_dec (fc_i c) 0) as [E | N]; [| lia].
    rewrite E in Hin. change (wrap64 (0 - 1)) with (2 ^ 64 - 1) in Hin.
    lia. }
  rewrite (@wrap64_small (fc_i c - 1)) in Ht by lia.
  assert (Efs : to_int (wrap64 (sv_size a + i1 - wrap64 (crs - c0)))
                = to_int (wrap64 (i1 - wrap64 (crs - (c0 + sv_size a))))).
  { rewrite !wrap64_sub_r. do 2 f_equal. ring. }
  assert (Efl : forall s,
             wrap64 (sv_size a + fc_i c - wrap64 (s + wrap64 (crs - c0)))
             = wrap64 (fc_i c
                       - wrap64 (s + wrap64 (crs - (c0 + sv_size a))))).
  { intro s. rewrite !wrap64_add_r, !wrap64_sub_r. f_equal. ring. }
  pose proof (@parse_field_Ok_intro QuoteEscape (a ++ b) (sv_size a + i) fs
                (wrap64 (crs - c0)) (sv_size a + i1) (sv_size a + fc_i c)
                (fc_field_length c)) as Hintro.
  rewrite Efs, Efl, <- Hfs in Hintro.
  rewrite Hintro; [reflexivity | | | |].
  - rewrite sv_size_app. lia.
  - apply stops_suffix; [lia | exact H1].
  - apply stops_suffix; [lia | exact H2].
  - rewrite (@wrap64_small (sv_size a + fc_i c - 1)) by lia.
    replace (sv_size a + fc_i c - 1) with (fc_i c - 1 + sv_size a) by ring.
    apply (@trim_trailing_transfer b (a ++ b) (sv_size a)
             ltac:(lia) ltac:(lia))
      with (fuel1 := S (length b)).
    + intros k ch Hk Hch. rewrite Z.add_comm.
      apply sv_at_app_r; [lia | exact Hch].
    + exact Ht.
    + lia.
    + rewrite length_app. unfold sv_size in *. lia.
Qed.

End Chunking.

(** * Further properties of the header

    ** The row channel: constructors, waiting and peeking *)

Section ChannelHistories.

Variable T : Type.

Lemma all_guarded_push_back (item : T) (q : ThreadSafeDeque.t T) :
  ThreadSafeDeque.all_guarded (ThreadSafeDeque.push_back item q)
  = ThreadSafeDeque.all_guarded q.
Proof.
  unfold ThreadSafeDeque.all_guarded. simpl.
  rewrite forallb_app. simpl. rewrite !andb_true_r. reflexivity.
Qed.

Lemma pop_front_cons_full (q : ThreadSafeDeque.t T) (x : T) (rest : list T) :
  ThreadSafeDeque.data q = x :: rest ->
  exists q',
    ThreadSafeDeque.pop_front q = ThreadSafeDeque.Returns (x, q') /\
    ThreadSafeDeque.data q' = rest /\
    ThreadSafeDeque.stop_waiting q' = ThreadSafeDeque.stop_waiting q /\
    ThreadSafeDeque._lock q' = false /\
    ThreadSafeDeque.all_guarded q' = ThreadSafeDeque.all_guarded q.
Proof.
  intro H. unfold ThreadSafeDeque.pop_front. simpl. rewrite H.
  eexists. split; [reflexivity |]. simpl.
  repeat split.
  unfold ThreadSafeDeque.all_guarded. simpl.
  rewrite !forallb_app. simpl. rewrite !andb_true_r. reflexivity.
Qed.

(** [n] pops on a deque that holds at least [n] elements return its first
    [n] elements and leave the others. *)
Lemma run_pops (n : nat) :
  forall q : ThreadSafeDeque.t T,
    (n <= length (ThreadSafeDeque.data q))%nat ->
    exists q',
      ThreadSafeDeque.run (repeat ThreadSafeDeque.Pop n) q
      = ThreadSafeDeque.Returns (firstn n (ThreadSafeDeque.data q), q') /\
      ThreadSafeDeque.data q' = skipn n (ThreadSafeDeque.data q) /\
      ThreadSafeDeque.stop_waiting q' = ThreadSafeDeque.stop_waiting q.
Proof.
  induction n as [| n IH]; intros q Hn.
  - exists q. simpl. repeat split.
  - destruct (ThreadSafeDeque.data q) as [| x rest] eqn:Hd;
      [simpl in Hn; lia |].
    destruct (@pop_front_cons_full q x rest Hd) as (q1 & Hp & Hd1 & Hs1 & _).
    destruct (IH q1) as (q2 & Hr & Hd2 & Hs2).
    { rewrite Hd1. simpl in Hn. lia. }
    rewrite Hd1 in Hr, Hd2.
    exists q2. simpl. rewrite Hp, Hr.
    split; [reflexivity |]. split; [exact Hd2 | congruence].
Qed.

(** X1.  A channel constructed from a [std::deque] reports its size, does
    not make [wait_for_data] block even when the deque is empty, and
    [size()] calls of [pop_front] return the elements of the deque in
    their order and leave the channel empty. *)
Theorem from_deque_drains_in_order (source : list T) :
  fst (ThreadSafeDeque.size (ThreadSafeDeque.from_deque source))
  = Z.of_nat (length source) /\
  (exists q,
      ThreadSafeDeque.wait_for_data (ThreadSafeDeque.from_deque source)
      = ThreadSafeDeque.Returns (true, q)) /\
  exists q',
    ThreadSafeDeque.run (repeat ThreadSafeDeque.Pop (length source))
      (ThreadSafeDeque.from_deque source)
    = ThreadSafeDeque.Returns (source, q') /\
    ThreadSafeDeque.data q' = [] /\
    fst (ThreadSafeDeque.empty q') = true /\
    ThreadSafeDeque.pop_front q' = ThreadSafeDeque.Undefined.
Proof.
  split; [reflexivity |]. split.
  - unfold ThreadSafeDeque.wait_for_data. simpl.
    destruct source; simpl; eexists; reflexivity.
  - destruct (@run_pops (length source) (ThreadSafeDeque.from_deque source))
      as (q' & Hr & Hd & _); [simpl; lia |].
    simpl in Hr, Hd. rewrite firstn_all in Hr. rewrite skipn_all in Hd.
    exists q'. split; [exact Hr |]. split; [exact Hd |].
    split.
    + unfold ThreadSafeDeque.empty. simpl. rewrite Hd. reflexivity.
    + unfold ThreadSafeDeque.pop_front. simpl. rewrite Hd. reflexivity.
Qed.

(** X2.  The copy constructor copies the rows and nothing else: the copy
    holds the same elements in the same order, but its [stop_waiting] is
    [true] whatever the flag of the original, so [wait_for_data] on the
    copy of an empty channel returns where the same call on the original,
    after [start_waiters], suspends. *)
Theorem copy_keeps_rows_resets_flag (other : ThreadSafeDeque.t T) :
  ThreadSafeDeque.data (ThreadSafeDeque.copy other)
  = ThreadSafeDeque.data other /\
  ThreadSafeDeque.stop_waiting (ThreadSafeDeque.copy other) = true /\
  (exists q,
      ThreadSafeDeque.wait_for_data (ThreadSafeDeque.copy other)
      = ThreadSafeDeque.Returns (true, q) /\
      ThreadSafeDeque.data q = ThreadSafeDeque.data other) /\
  (ThreadSafeDeque.data other = [] ->
   ThreadSafeDeque.wait_for_data (ThreadSafeDeque.start_waiters other)
   = ThreadSafeDeque.Blocks /\
   exists q,
     ThreadSafeDeque.wait_for_data
       (ThreadSafeDeque.copy (ThreadSafeDeque.start_waiters other))
     = ThreadSafeDeque.Returns (true, q)) /\
  exists q',
    ThreadSafeDeque.run
      (repeat ThreadSafeDeque.Pop (length (ThreadSafeDeque.data other)))
      (ThreadSafeDeque.copy other)
    = ThreadSafeDeque.Returns (ThreadSafeDeque.data other, q') /\
    ThreadSafeDeque.data q' = [].
Proof.
  split; [reflexivity |]. split; [reflexivity |]. split; [| split].
  - unfold ThreadSafeDeque.wait_for_data. simpl.
    destruct (ThreadSafeDeque.data other) eqn:Hd; simpl;
      eexists; (split; [reflexivity | simpl; rewrite ?Hd; reflexivity]).
  - intro He. unfold ThreadSafeDeque.wait_for_data. simpl. rewrite He. simpl.
    split; [reflexivity | eexists; reflexivity].
  - destruct (@run_pops (length (ThreadSafeDeque.data other))
                (ThreadSafeDeque.copy other)) as (q' & Hr & Hd & _);
      [simpl; lia |].
    simpl in Hr, Hd. rewrite firstn_all in Hr. rewrite skipn_all in Hd.
    exists q'. split; assumption.
Qed.

(** X3.  [wait_for_data] never consumes a row and only ever returns
    [true]; it returns, in every state of the channel, right after a
    [push_back] and right after [stop_waiters]; after [start_waiters] it
    suspends exactly when the channel is empty; and of [start_waiters] and
    [stop_waiters] the last call decides. *)
Theorem wait_for_data_returns_after_push_or_stop (q : ThreadSafeDeque.t T) :
  (forall b q',
      ThreadSafeDeque.wait_for_data q = ThreadSafeDeque.Returns (b, q') ->
      b = true /\
      ThreadSafeDeque.data q' = ThreadSafeDeque.data q /\
      ThreadSafeDeque.stop_waiting q' = ThreadSafeDeque.stop_waiting q /\
      ThreadSafeDeque._lock q' = false) /\
  (forall item, exists q',
      ThreadSafeDeque.wait_for_data (ThreadSafeDeque.push_back item q)
      = ThreadSafeDeque.Returns (true, q') /\
      ThreadSafeDeque.data q' = ThreadSafeDeque.data q ++ [item]) /\
  (exists q',
      ThreadSafeDeque.wait_for_data (ThreadSafeDeque.stop_waiters q)
      = ThreadSafeDeque.Returns (true, q') /\
      ThreadSafeDeque.data q' = ThreadSafeDeque.data q) /\
  (ThreadSafeDeque.wait_for_data (ThreadSafeDeque.start_waiters q)
   = ThreadSafeDeque.Blocks <-> ThreadSafeDeque.data q = []) /\
  ThreadSafeDeque.stop_waiters (ThreadSafeDeque.start_waiters q)
  = ThreadSafeDeque.stop_waiters q /\
  ThreadSafeDeque.start_waiters (ThreadSafeDeque.stop_waiters q)
  = ThreadSafeDeque.start_waiters q.
Proof.
  split; [| split; [| split; [| split; [| split]]]].
  - intros b q' H. unfold ThreadSafeDeque.wait_for_data in H. simpl in H.
    destruct (ThreadSafeDeque.data q) eqn:Hd;
      destruct (ThreadSafeDeque.stop_waiting q) eqn:Hs; simpl in H;
      try discriminate; inversion H; subst; simpl; rewrite ?Hd, ?Hs;
      repeat split.
  - intro item. unfold ThreadSafeDeque.wait_for_data. simpl.
    destruct (ThreadSafeDeque.data q ++ [item]) eqn:Hd.
    + destruct (ThreadSafeDeque.data q); discriminate.
    + simpl. eexists. split; [reflexivity |]. simpl. exact Hd.
  - unfold ThreadSafeDeque.wait_for_data. simpl.
    destruct (ThreadSafeDeque.data q) eqn:Hd; simpl;
      eexists; (split; [reflexivity | simpl; rewrite ?Hd; reflexivity]).
  - unfold ThreadSafeDeque.wait_for_data. simpl.
    destruct (ThreadSafeDeque.data q); simpl; split; intro H;
      try reflexivity; discriminate.
  - reflexivity.
  - reflexivity.
Qed.

(** X4.  [clear] removes every row and touches nothing else: afterwards
    [empty] is [true], [size] is 0, [front] and [pop_front] are undefined,
    the flag [stop_waiting] is what it was, so that [wait_for_data]
    suspends exactly when the flag is [false], and a row pushed next is
    the row the next [pop_front] returns. *)
Theorem clear_empties_channel (q : ThreadSafeDeque.t T) :
  fst (ThreadSafeDeque.empty (ThreadSafeDeque.clear q)) = true /\
  fst (ThreadSafeDeque.size (ThreadSafeDeque.clear q)) = 0 /\
  ThreadSafeDeque.front (ThreadSafeDeque.clear q) = ThreadSafeDeque.Undefined /\
  ThreadSafeDeque.pop_front (ThreadSafeDeque.clear q)
  = ThreadSafeDeque.Undefined /\
  ThreadSafeDeque.stop_waiting (ThreadSafeDeque.clear q)
  = ThreadSafeDeque.stop_waiting q /\
  (ThreadSafeDeque.wait_for_data (ThreadSafeDeque.clear q)
   = ThreadSafeDeque.Blocks <-> ThreadSafeDeque.stop_waiting q = false) /\
  forall item, exists q',
    ThreadSafeDeque.pop_front
      (ThreadSafeDeque.push_back item (ThreadSafeDeque.clear q))
    = ThreadSafeDeque.Returns (item, q') /\
    ThreadSafeDeque.data q' = [].
Proof.
  repeat (split; [reflexivity |]).
  split.
  - unfold ThreadSafeDeque.wait_for_data. simpl.
    destruct (ThreadSafeDeque.stop_waiting q); simpl; split; intro H;
      try reflexivity; discriminate.
  - intro item. eexists. split; reflexivity.
Qed.

(** X5.  Along every history of [push_back] and [pop_front] calls that
    never pops from an empty deque, [size] is the size at the start plus
    the number of pushes minus the number of pops, [empty] is [true]
    exactly when [size] is 0, the flag [stop_waiting] is untouched, and
    every access to [data] the history adds to the log is made with the
    lock held. *)
Theorem size_counts_pushes_minus_pops
  (ops : list (ThreadSafeDeque.QueueOp T)) (q : ThreadSafeDeque.t T) :
  ThreadSafeDeque.pops_covered ops (length (ThreadSafeDeque.data q)) = true ->
  exists outs q',
    ThreadSafeDeque.run ops q = ThreadSafeDeque.Returns (outs, q') /\
    fst (ThreadSafeDeque.size q') + Z.of_nat (length outs)
    = fst (ThreadSafeDeque.size q)
      + Z.of_nat (length (ThreadSafeDeque.pushed ops)) /\
    (fst (ThreadSafeDeque.empty q') = true
     <-> fst (ThreadSafeDeque.size q') = 0) /\
    ThreadSafeDeque.stop_waiting q' = ThreadSafeDeque.stop_waiting q /\
    ThreadSafeDeque.all_guarded q' = ThreadSafeDeque.all_guarded q.
Proof.
  revert q. induction ops as [| op ops IH]; intros q Hc.
  - exists [], q. simpl. split; [reflexivity |]. split; [lia |].
    split; [| split; reflexivity].
    destruct (ThreadSafeDeque.data q); simpl; split; intro H;
      try reflexivity; try discriminate; lia.
  - destruct op as [item |]; simpl in Hc.
    + destruct (IH (ThreadSafeDeque.push_back item q))
        as (outs & q' & Hr & Hn & He & Hs & Hg).
      { rewrite push_back_data, length_app. simpl.
        rewrite Nat.add_1_r. exact Hc. }
      exists outs, q'. split; [exact Hr |].
      split.
      { rewrite Hn. simpl. rewrite length_app. simpl. lia. }
      split; [exact He |]. split; [exact Hs |].
      rewrite Hg. apply all_guarded_push_back.
    + destruct (ThreadSafeDeque.data q) as [| x rest] eqn:Hd;
        [discriminate |].
      destruct (@pop_front_cons_full q x rest Hd)
        as (q1 & Hp & Hd1 & Hs1 & _ & Hg1).
      destruct (IH q1) as (outs & q' & Hr & Hn & He & Hs & Hg).
      { rewrite Hd1. exact Hc. }
      exists (x :: outs), q'. simpl. rewrite Hp, Hr.
      split; [reflexivity |].
      split.
      { simpl in Hn. rewrite Hd1 in Hn. rewrite Hd. simpl length. lia. }
      split; [exact He |]. split; congruence.
Qed.


(** X7.  [operator[]] and [front] only look: [operator[](n)] below
    [size()] returns the row that the [(n+1)]th [pop_front] from now would
    return and leaves the rows as they are, at or beyond [size()] it is
    undefined, and [front] is [operator[](0)]. *)
Theorem index_peeks_future_pop (q : ThreadSafeDeque.t T) (n : nat) :
  ((n < length (ThreadSafeDeque.data q))%nat ->
   exists x q1 outs q2,
     ThreadSafeDeque.index (Z.of_nat n) q = ThreadSafeDeque.Returns (x, q1) /\
     ThreadSafeDeque.data q1 = ThreadSafeDeque.data q /\
     ThreadSafeDeque.run (repeat ThreadSafeDeque.Pop (S n)) q
     = ThreadSafeDeque.Returns (outs, q2) /\
     length outs = S n /\
     nth_error outs n = Some x) /\
  ((length (ThreadSafeDeque.data q) <= n)%nat ->
   ThreadSafeDeque.index (Z.of_nat n) q = ThreadSafeDeque.Undefined) /\
  ThreadSafeDeque.front q = ThreadSafeDeque.index 0 q.
Proof.
  split; [| split].
  - intro Hn.
    destruct (nth_error (ThreadSafeDeque.data q) n) as [x |] eqn:Hx;
      [| apply nth_error_None in Hx; lia].
    destruct (@run_pops (S n) q) as (q2 & Hr & _); [lia |].
    exists x. eexists. exists (firstn (S n) (ThreadSafeDeque.data q)), q2.
    split.
    { unfold ThreadSafeDeque.index, array_at. simpl.
      destruct (Z.ltb_spec (Z.of_nat n) 0); [lia |].
      rewrite Nat2Z.id, Hx. reflexivity. }
    split; [reflexivity |]. split; [exact Hr |].
    split.
    + rewrite length_firstn. lia.
    + rewrite nth_error_firstn.
      destruct (Nat.ltb_spec n (S n)); [exact Hx | lia].
  - intro Hn. unfold ThreadSafeDeque.index, array_at. simpl.
    destruct (Z.ltb_spec (Z.of_nat n) 0); [reflexivity |].
    rewrite Nat2Z.id.
    destruct (nth_error (ThreadSafeDeque.data q) n) eqn:Hx; [| reflexivity].
    assert (nth_error (ThreadSafeDeque.data q) n <> None) as Hne
      by (rewrite Hx; discriminate).
    apply nth_error_Some in Hne. lia.
  - unfold ThreadSafeDeque.front, ThreadSafeDeque.index, array_at. simpl.
    destruct (ThreadSafeDeque.data q); reflexivity.
Qed.

End ChannelHistories.

Lemma size_counts_pushes_minus_pops_witness :
  exists outs q',
    ThreadSafeDeque.run
      [ThreadSafeDeque.Push 7%nat; ThreadSafeDeque.Pop;
       ThreadSafeDeque.Push 8%nat; ThreadSafeDeque.Push 9%nat]
      (ThreadSafeDeque.from_deque [5%nat])
    = ThreadSafeDeque.Returns (outs, q') /\
    fst (ThreadSafeDeque.size q') + Z.of_nat (length outs)
    = fst (ThreadSafeDeque.size (ThreadSafeDeque.from_deque [5%nat]))
      + Z.of_nat (length (ThreadSafeDeque.pushed
          [ThreadSafeDeque.Push 7%nat; ThreadSafeDeque.Pop;
           ThreadSafeDeque.Push 8%nat; ThreadSafeDeque.Push 9%nat])) /\
    (fst (ThreadSafeDeque.empty q') = true
     <-> fst (ThreadSafeDeque.size q') = 0) /\
    ThreadSafeDeque.stop_waiting q'
    = ThreadSafeDeque.stop_waiting (ThreadSafeDeque.from_deque [5%nat]) /\
    ThreadSafeDeque.all_guarded q'
    = ThreadSafeDeque.all_guarded (ThreadSafeDeque.from_deque [5%nat]).
Proof.
  apply (@size_counts_pushes_minus_pops nat
           [ThreadSafeDeque.Push 7%nat; ThreadSafeDeque.Pop;
            ThreadSafeDeque.Push 8%nat; ThreadSafeDeque.Push 9%nat]
           (ThreadSafeDeque.from_deque [5%nat])).
  reflexivity.
Defined.

(** ** [parse_field]: what it returns and where it can fault *)

Section ParseFieldExtent.

Variable pf : ParseFlagMap.
Variable ws : WhitespaceMap.

(** The trailing trim removes exactly the run of whitespace it meets: [m]
    whitespace bytes below [j], then a byte that is kept or a length that
    has reached 0. *)
Lemma trim_trailing_exact (in_ : string_view) :
  forall (fuel : nat) (j fl m : Z),
    0 <= m <= fl ->
    m <= j < sv_size in_ ->
    j < 2 ^ 64 ->
    (Z.to_nat m < fuel)%nat ->
    (forall k, j - m < k <= j ->
       exists ch, sv_at in_ k = Ok ch /\ BasicCSVParser.ws_flag ws ch = true) ->
    (m = fl \/
     exists ch, sv_at in_ (j - m) = Ok ch /\
                BasicCSVParser.ws_flag ws ch = false) ->
    BasicCSVParser.trim_trailing ws fuel in_ j fl = Ok (fl - m).
Proof.
  induction fuel as [| fuel IH]; intros j fl m Hm Hj Hj64 Hf Hall Hstop;
    [lia |].
  simpl.
  destruct (@sv_at_in in_ j) as [ch Hch]; [lia |].
  rewrite Hch, bind_Ok.
  destruct (Z.eq_dec m 0) as [E | Hne].
  - subst m. replace (fl - 0) with fl by lia.
    destruct Hstop as [E | (c & Hc & Hw)].
    + subst fl. rewrite andb_false_r. reflexivity.
    + replace (j - 0) with j in Hc by lia.
      rewrite Hch in Hc. inversion Hc. subst c. rewrite Hw. reflexivity.
  - destruct (Hall j) as (c & Hc & Hw); [lia |].
    rewrite Hch in Hc. inversion Hc. subst c. rewrite Hw.
    destruct (Z.ltb_spec 0 fl) as [_ | ?]; [| lia].
    simpl. rewrite wrap64_small by lia.
    rewrite (IH (j - 1) (fl - 1) (m - 1)); try lia.
    + f_equal. lia.
    + intros k Hk. apply Hall. lia.
    + destruct Hstop as [E | Hs]; [left; lia | right].
      replace (j - 1 - (m - 1)) with (j - m) by lia. exact Hs.
Qed.

(** X8.  [parse_field] returns the trimmed extent of the field.  Let [i1]
    be where the skip of leading whitespace stops, [e] where the scan
    stops, [F] the index the field starts at (the given start, or [i1]
    when none is set), and [t] the end of the field once the whitespace
    before [e] is taken off.  Then the call returns with the index at [e],
    the field start unchanged or set to the offset of [i1] from the row
    start, and the length [t - F]: whitespace inside the field is kept,
    whitespace at both ends is not counted. *)
Theorem parse_field_trims_both_ends (QuoteEscape : bool) (in_ : string_view)
  (i i1 e t F fs crs : Z) :
  sv_size in_ < 2 ^ 64 ->
  0 <= i ->
  stops (BasicCSVParser.ws_flag ws) in_ i i1 ->
  stops (BasicCSVParser.scan_continues pf QuoteEscape) in_ i1 e ->
  1 <= e ->
  F = (if fs <? 0 then i1 else fs + crs) ->
  (fs < 0 -> 0 <= i1 - crs < 2 ^ 31) ->
  0 <= F <= t ->
  t <= e ->
  (forall k, t <= k < e ->
     exists ch, sv_at in_ k = Ok ch /\ BasicCSVParser.ws_flag ws ch = true) ->
  (F < t ->
     exists ch, sv_at in_ (t - 1) = Ok ch /\
                BasicCSVParser.ws_flag ws ch = false) ->
  (t = F -> t < e -> 1 <= F) ->
  BasicCSVParser.parse_field pf ws QuoteEscape in_ i fs crs
  = Ok {| fc_i := e;
          fc_field_start := (if fs <? 0 then i1 - crs else fs);
          fc_field_length := t - F |}.
Proof.
  intros Hsz Hi Hs1 Hs2 He HF Hint HFt Hte Hall Hkept Hzero.
  pose proof Hs1 as ((Hii1 & _) & _).
  pose proof Hs2 as ((Hi1e & Hesz) & _).
  assert (Hfs' : (if fs <? 0 then to_int (wrap64 (i1 - crs)) else fs)
                 = (if fs <? 0 then i1 - crs else fs)).
  { destruct (Z.ltb_spec fs 0) as [Hneg | _]; [| reflexivity].
    specialize (Hint Hneg). rewrite to_int_wrap64, to_int_small by lia.
    reflexivity. }
  assert (Hbase : (if fs <? 0 then i1 - crs else fs) + crs = F).
  { rewrite HF. destruct (Z.ltb_spec fs 0); lia. }
  rewrite <- Hfs'.
  replace (t - F) with (e - F - (e - t)) by lia.
  apply parse_field_Ok_intro; [lia | exact Hs1 | exact Hs2 |].
  rewrite Hfs', Hbase, wrap64_sub_r.
  rewrite (@wrap64_small (e - F)) by lia.
  rewrite (@wrap64_small (e - 1)) by lia.
  apply trim_trailing_exact.
  - lia.
  - destruct (Z.eq_dec t F) as [E | N]; [| lia].
    destruct (Z.eq_dec t e) as [E' | N']; [lia |].
    assert (1 <= F) by (apply Hzero; lia). lia.
  - lia.
  - unfold sv_size in *. lia.
  - intros k Hk. apply Hall. lia.
  - destruct (Z.eq_dec t F) as [E | N]; [left; lia | right].
    replace (e - 1 - (e - t)) with (t - 1) by lia.
    apply Hkept. lia.
Qed.

(** A trim started outside the span faults at its first read. *)
Lemma trim_trailing_outside (in_ : string_view) (fuel : nat) (j fl : Z) :
  j < 0 \/ sv_size in_ <= j ->
  BasicCSVParser.trim_trailing ws (S fuel) in_ j fl = Err (OutOfBounds j).
Proof.
  intro H. simpl. rewrite (@sv_at_out in_ j H). reflexivity.
Qed.

(** A trim started inside the span returns unless it walks off the front
    of the span: then the index wraps and the read is at [SIZE_MAX]. *)
Lemma trim_trailing_fault_iff (in_ : string_view) :
  sv_size in_ < 2 ^ 64 ->
  forall (fuel : nat) (j fl : Z),
    0 <= j < sv_size in_ ->
    (Z.to_nat j + 1 < fuel)%nat ->
    (BasicCSVParser.trim_trailing ws fuel in_ j fl
     = Err (OutOfBounds SIZE_MAX) <->
     (forall k, 0 <= k <= j ->
        exists ch, sv_at in_ k = Ok ch /\
                   BasicCSVParser.ws_flag ws ch = true) /\
     j < fl) /\
    ((exists fl', BasicCSVParser.trim_trailing ws fuel in_ j fl = Ok fl') \/
     BasicCSVParser.trim_trailing ws fuel in_ j fl
     = Err (OutOfBounds SIZE_MAX)).
Proof.
  intro Hsz.
  induction fuel as [| fuel IH]; intros j fl Hj Hf; [lia |].
  cbn [BasicCSVParser.trim_trailing].
  destruct (@sv_at_in in_ j Hj) as [ch Hch].
  rewrite Hch, bind_Ok.
  destruct (BasicCSVParser.ws_flag ws ch) eqn:Hw;
    destruct (Z.ltb_spec 0 fl) as [Hfl | Hfl];
    cbn [andb].
  - destruct (Z.eq_dec j 0) as [E | N].
    + subst j. change (wrap64 (0 - 1)) with SIZE_MAX.
      destruct fuel as [| fuel]; [lia |].
      rewrite trim_trailing_outside by (right; unfold SIZE_MAX; lia).
      split; [| right; reflexivity].
      split; [intros _ | reflexivity].
      split; [| lia].
      intros k Hk. assert (k = 0) by lia. subst k. eauto.
    + rewrite wrap64_small by lia.
      destruct (IH (j - 1) (fl - 1)) as [Hiff Htot]; [lia | lia |].
      split; [| exact Htot].
      rewrite Hiff. split; intros [Hall Hlt]; (split; [| lia]).
      * intros k Hk. destruct (Z.eq_dec k j) as [-> | Nk];
          [eauto | apply Hall; lia].
      * intros k Hk. apply Hall. lia.
  - split; [| left; eauto].
    split; [discriminate | intros [_ Hlt]; lia].
  - split; [| left; eauto].
    split; [discriminate |].
    intros [Hall _]. destruct (Hall j) as (c & Hc & Hwc); [lia |]. congruence.
  - split; [| left; eauto].
    split; [discriminate | intros [_ Hlt]; lia].
Qed.

(** X9.  [parse_field] called inside a span never reads past the end of
    the span.  With [i1] where the skip of leading whitespace stops and
    [e] where the scan stops, the call either returns with the index at
    [e], or its one read outside the span is the read of the trailing trim
    at [SIZE_MAX], the wrapped index before the first byte; and that
    happens exactly when every byte of the span before [e] is whitespace
    and the length before trimming is at least [e]. *)
Theorem parse_field_faults_only_before_span (QuoteEscape : bool)
  (in_ : string_view) (i fs crs : Z) :
  sv_size in_ < 2 ^ 64 ->
  0 <= i <= sv_size in_ ->
  exists i1 e,
    stops (BasicCSVParser.ws_flag ws) in_ i i1 /\
    stops (BasicCSVParser.scan_continues pf QuoteEscape) in_ i1 e /\
    ((exists c,
         BasicCSVParser.parse_field pf ws QuoteEscape in_ i fs crs = Ok c /\
         fc_i c = e) \/
     BasicCSVParser.parse_field pf ws QuoteEscape in_ i fs crs
     = Err (OutOfBounds SIZE_MAX)) /\
    (BasicCSVParser.parse_field pf ws QuoteEscape in_ i fs crs
     = Err (OutOfBounds SIZE_MAX) <->
     (forall k, 0 <= k < e ->
        exists ch, sv_at in_ k = Ok ch /\
                   BasicCSVParser.ws_flag ws ch = true) /\
     e <= wrap64 (e - wrap64
            ((if fs <? 0 then to_int (wrap64 (i1 - crs)) else fs) + crs))).
Proof.
  intros Hsz Hi.
  destruct (@parse_field_stages pf ws QuoteEscape in_ i fs crs Hi)
    as (i1 & i2 & Hle1 & Hle2 & Hsz2 & Hws1 & Hstop1 & Hsc & Hstop2 & Heq).
  exists i1, i2.
  split; [unfold stops; repeat split; try lia; assumption |].
  split; [unfold stops; repeat split; try lia; assumption |].
  rewrite Heq. cbv zeta.
  set (fl0 := wrap64 (i2 - wrap64
                ((if fs <? 0 then to_int (wrap64 (i1 - crs)) else fs) + crs))).
  destruct (Z.eq_dec i2 0) as [E | N].
  - assert (Hfl0 : 0 <= fl0) by apply wrap64_range.
    clearbody fl0. subst i2.
    change (wrap64 (0 - 1)) with SIZE_MAX.
    rewrite trim_trailing_outside by (right; unfold SIZE_MAX; lia).
    rewrite bind_Err.
    split; [right; reflexivity |].
    split; [intros _ | reflexivity].
    split; [intros k Hk; lia | exact Hfl0].
  - rewrite (@wrap64_small (i2 - 1)) by lia.
    destruct (@trim_trailing_fault_iff in_ Hsz (S (length in_)) (i2 - 1) fl0)
      as [Hiff Htot]; [lia | unfold sv_size in *; lia |].
    destruct (BasicCSVParser.trim_trailing ws (S (length in_)) in_
                (i2 - 1) fl0) as [fl | f] eqn:Ht.
    + rewrite bind_Ok.
      split; [left; eexists; split; reflexivity |].
      split; [discriminate |].
      intros [Hall Hle]. exfalso.
      assert (Hx : @Ok Z fl = Err (OutOfBounds SIZE_MAX)); [| discriminate].
      apply Hiff. split; [| lia].
      intros k Hk. apply Hall. lia.
    + rewrite bind_Err.
      assert (Hf : f = OutOfBounds SIZE_MAX).
      { destruct Htot as [[fl' Hx] | Hx]; [discriminate | congruence]. }
      subst f.
      split; [right; reflexivity |].
      split; [intros _ | reflexivity].
      destruct (proj1 Hiff eq_refl) as [Hall Hlt].
      split; [| lia].
      intros k Hk. apply Hall. lia.
Qed.


(** X10.  [parse_field<false>] never steps over a special byte: when it
    returns, the index has not moved backward, every byte it went over is
    whitespace or NOT_SPECIAL, the index is at the end of the span or at a
    byte whose tag is not NOT_SPECIAL, and a field start that was set on
    entry is the field start on return. *)
Theorem unquoted_field_ends_at_special_byte (in_ : string_view)
  (i fs crs : Z) (c : FieldCursor) :
  0 <= i <= sv_size in_ ->
  BasicCSVParser.parse_field pf ws false in_ i fs crs = Ok c ->
  i <= fc_i c <= sv_size in_ /\
  (forall k, i <= k < fc_i c ->
     exists ch, sv_at in_ k = Ok ch /\
                (BasicCSVParser.ws_flag ws ch = true \/
                 BasicCSVParser.parse_flag pf ch = NOT_SPECIAL)) /\
  (fc_i c < sv_size in_ ->
     exists ch, sv_at in_ (fc_i c) = Ok ch /\
                BasicCSVParser.parse_flag pf ch <> NOT_SPECIAL) /\
  (0 <= fs -> fc_field_start c = fs).
Proof.
  intros Hi H.
  destruct (@parse_field_Ok_inv pf ws false in_ i fs crs c Hi H)
    as (i1 & Hs1 & Hs2 & Hfs & _).
  destruct Hs1 as ((Ha & Hb) & Hall1 & _).
  destruct Hs2 as ((Hc & Hd) & Hall2 & Hstop2).
  split; [lia |]. split; [| split].
  - intros k Hk. destruct (Z.lt_ge_cases k i1) as [Hlt | Hge].
    + destruct (Hall1 k) as (ch & Hch & Hw); [lia |]. eauto.
    + destruct (Hall2 k) as (ch & Hch & Hsc); [lia |].
      exists ch. split; [exact Hch |]. right.
      apply ParseFlags_eqb_eq. exact Hsc.
  - intro Hlt. destruct (Hstop2 Hlt) as (ch & Hch & Hsc).
    exists ch. split; [exact Hch |]. intro E.
    unfold BasicCSVParser.scan_continues in Hsc. rewrite E in Hsc.
    discriminate.
  - intro Hpos. rewrite Hfs.
    destruct (Z.ltb_spec fs 0); [lia | reflexivity].
Qed.

(** X11.  [parse_field] is local and relative to the row start: when the
    call on a span [a] stops before the end of [a], the same bytes found
    at any offset inside a longer span, with the row start moved by the
    same offset, give the same field start and length and the index moved
    by the offset; what precedes [a] and what follows the stopping byte
    are not looked at. *)
Theorem parse_field_is_local (QuoteEscape : bool)
  (pre a post : string_view) (i fs r : Z) (c : FieldCursor) :
  sv_size (pre ++ a ++ post) < 2 ^ 64 ->
  0 <= i <= sv_size a ->
  0 <= r < 2 ^ 64 ->
  BasicCSVParser.parse_field pf ws QuoteEscape a i fs r = Ok c ->
  fc_i c < sv_size a ->
  BasicCSVParser.parse_field pf ws QuoteEscape (pre ++ a ++ post)
    (sv_size pre + i) fs (wrap64 (r + sv_size pre))
  = Ok {| fc_i := sv_size pre + fc_i c;
          fc_field_start := fc_field_start c;
          fc_field_length := fc_field_length c |}.
Proof.
  intros Hsz Hi Hr H Hstop.
  rewrite !sv_size_app in Hsz.
  pose proof (sv_size_nonneg pre) as Hpre.
  pose proof (sv_size_nonneg post) as Hpost.
  assert (H1 : BasicCSVParser.parse_field pf ws QuoteEscape (a ++ post) i fs r
               = Ok c).
  { apply parse_field_prefix; [rewrite sv_size_app; lia | lia | exact H
                              | exact Hstop]. }
  replace (wrap64 (r + sv_size pre))
    with (wrap64 (r + sv_size pre - 0)) by (f_equal; lia).
  apply parse_field_suffix.
  - rewrite !sv_size_app. lia.
  - rewrite sv_size_app. lia.
  - replace (r + sv_size pre - (0 + sv_size pre)) with r by lia.
    rewrite wrap64_small by lia. exact H1.
Qed.

End ParseFieldExtent.


Lemma parse_field_trims_both_ends_witness :
  BasicCSVParser.parse_field comma_flags space_tab_ws false
    (bytes " a b  ,c") 0 (-1) 0
  = Ok {| fc_i := 6; fc_field_start := 1; fc_field_length := 3 |}.
Proof.
  apply (@parse_field_trims_both_ends comma_flags space_tab_ws false
           (bytes " a b  ,c") 0 1 6 4 1 (-1) 0).
  - reflexivity.
  - lia.
  - unfold stops. split; [vm_compute; repeat split; discriminate |].
    split.
    + intros k Hk. assert (k = 0) by lia. subst k.
      eexists. split; reflexivity.
    + intros _. eexists. split; reflexivity.
  - unfold stops. split; [vm_compute; repeat split; discriminate |].
    split.
    + intros k Hk.
      assert (k = 1 \/ k = 2 \/ k = 3 \/ k = 4 \/ k = 5) as Hc by lia.
      destruct Hc as [-> | [-> | [-> | [-> | ->]]]];
        eexists; split; reflexivity.
    + intros _. eexists. split; reflexivity.
  - lia.
  - reflexivity.
  - intros _. lia.
  - lia.
  - lia.
  - intros k Hk. assert (k = 4 \/ k = 5) as [-> | ->] by lia;
      eexists; split; reflexivity.
  - intros _. eexists. split; reflexivity.
  - lia.
Defined.

Lemma parse_field_faults_only_before_span_witness :
  exists i1 e,
    stops (BasicCSVParser.ws_flag space_tab_ws) (bytes " ,b") 0 i1 /\
    stops (BasicCSVParser.scan_continues comma_flags false)
      (bytes " ,b") i1 e /\
    ((exists c,
         BasicCSVParser.parse_field comma_flags space_tab_ws false
           (bytes " ,b") 0 (-1) 0 = Ok c /\
         fc_i c = e) \/
     BasicCSVParser.parse_field comma_flags space_tab_ws false
       (bytes " ,b") 0 (-1) 0
     = Err (OutOfBounds SIZE_MAX)) /\
    (BasicCSVParser.parse_field comma_flags space_tab_ws false
       (bytes " ,b") 0 (-1) 0
     = Err (OutOfBounds SIZE_MAX) <->
     (forall k, 0 <= k < e ->
        exists ch, sv_at (bytes " ,b") k = Ok ch /\
                   BasicCSVParser.ws_flag space_tab_ws ch = true) /\
     e <= wrap64 (e - wrap64
            ((if -1 <? 0 then to_int (wrap64 (i1 - 0)) else -1) + 0))).
Proof.
  apply (@parse_field_faults_only_before_span comma_flags space_tab_ws false
           (bytes " ,b") 0 (-1) 0).
  - reflexivity.
  - vm_compute. split; discriminate.
Defined.

Lemma unquoted_field_ends_at_special_byte_witness :
  0 <= 2 <= sv_size (bytes "ab,c") /\
  (forall k, 0 <= k < 2 ->
     exists ch, sv_at (bytes "ab,c") k = Ok ch /\
                (BasicCSVParser.ws_flag space_tab_ws ch = true \/
                 BasicCSVParser.parse_flag comma_flags ch = NOT_SPECIAL)) /\
  (2 < sv_size (bytes "ab,c") ->
     exists ch, sv_at (bytes "ab,c") 2 = Ok ch /\
                BasicCSVParser.parse_flag comma_flags ch <> NOT_SPECIAL) /\
  (0 <= -1 -> 0 = -1).
Proof.
  apply (@unquoted_field_ends_at_special_byte comma_flags space_tab_ws
           (bytes "ab,c") 0 (-1) 0
           {| fc_i := 2; fc_field_start := 0; fc_field_length := 2 |}).
  - vm_compute. split; discriminate.
  - reflexivity.
Defined.

Lemma parse_field_is_local_witness :
  BasicCSVParser.parse_field comma_flags space_tab_ws false
    (bytes "x," ++ bytes " ab ," ++ bytes "c")
    (sv_size (bytes "x,") + 0) (-1) (wrap64 (0 + sv_size (bytes "x,")))
  = Ok {| fc_i := sv_size (bytes "x,") + 4;
          fc_field_start := 1;
          fc_field_length := 2 |}.
Proof.
  apply (@parse_field_is_local comma_flags space_tab_ws false
           (bytes "x,") (bytes " ab ,") (bytes "c") 0 (-1) 0
           {| fc_i := 4; fc_field_start := 1; fc_field_length := 2 |}).
  - reflexivity.
  - vm_compute. split; discriminate.
  - lia.
  - reflexivity.
  - reflexivity.
Defined.

(** ** The classification tables and [push_row] *)

(** X12.  With the tables laid out as the members document, the
    [(c + 128)]th slot holding the entry of the character [c], [parse_flag]
    and [ws_flag] return the entry of the character they are given, for
    every byte, the bytes 128-255 that a signed [char] holds as negative
    values included. *)
Theorem accessors_return_entry_of_char
  (f : Z -> ParseFlags) (g : Z -> bool) (ch : char) :
  BasicCSVParser.parse_flag (flags_of f) ch = f (char_value ch) /\
  BasicCSVParser.ws_flag (ws_of g) ch = g (char_value ch).
Proof.
  destruct ch; split; reflexivity.
Qed.

(** X13.  [push_row] hands the finished row to the consumer: whatever the
    flag [stop_waiting], [wait_for_data] returns after it; on a channel
    that was empty the next [pop_front] returns the row, with its
    [row_length] set and its other members as given, and leaves the
    channel empty; rows queued before stay ahead of it; and the flag is
    not changed. *)
Theorem push_row_hands_row_to_consumer
  (row : CSVRow) (fields : list RawCSVField) (records : RowCollection) :
  let records' := BasicCSVParser.push_row row fields records in
  let pushed :=
    set_row_length
      (wrap64 (Z.of_nat (length fields) - field_bounds_index row)) row in
  ThreadSafeDeque.stop_waiting records' = ThreadSafeDeque.stop_waiting records
  /\
  (exists q, ThreadSafeDeque.wait_for_data records'
             = ThreadSafeDeque.Returns (true, q) /\
             ThreadSafeDeque.data q
             = ThreadSafeDeque.data records ++ [pushed]) /\
  (ThreadSafeDeque.data records = [] ->
   exists q, ThreadSafeDeque.pop_front records'
             = ThreadSafeDeque.Returns (pushed, q) /\
             ThreadSafeDeque.data q = []) /\
  (forall first rest,
      ThreadSafeDeque.data records = first :: rest ->
      exists q, ThreadSafeDeque.pop_front records'
                = ThreadSafeDeque.Returns (first, q) /\
                ThreadSafeDeque.data q = rest ++ [pushed]).
Proof.
  cbv zeta. split; [reflexivity |]. split; [| split].
  - unfold BasicCSVParser.push_row, ThreadSafeDeque.wait_for_data. simpl.
    destruct (ThreadSafeDeque.data records) eqn:Hd; simpl;
      eexists; (split; [reflexivity | simpl; rewrite ?Hd; reflexivity]).
  - intro Hd. unfold BasicCSVParser.push_row, ThreadSafeDeque.pop_front.
    simpl. rewrite Hd. simpl. eexists. split; reflexivity.
  - intros first rest Hd.
    unfold BasicCSVParser.push_row, ThreadSafeDeque.pop_front.
    simpl. rewrite Hd. simpl. eexists. split; reflexivity.
Qed.
